(** * radix: the connection layer of a redis driver (radix.go)

    A shallow embedding of [radix.go]: the restricted stream view
    [connLimited], the deadline-enforcing stream [timeoutConn], the
    synchronized connection [connWrap] with [Do], [Encode], [Decode],
    [NetConn], and the factories [NewConn], [Dial], [DialTimeout].

    Go code is embedded as programs of a small monad [Prog]: a finite tree
    of atomic operations (mutex operations, allocation of a mutex, calls
    into the libraries the file imports).  One definition of each function
    serves two semantics: [run], one goroutine run to completion, and
    [sched_step], goroutines interleaved at atomic operations. *)

From Stdlib Require Import ZArith Lia String.
From stdpp Require Import base tactics option list.

Local Open Scope string_scope.
Local Open Scope list_scope.
Local Open Scope Z_scope.

(** ** Go values *)

(** A value of the interface type [error].  [err.(net.Error)] succeeds
    exactly on the values whose dynamic type implements [net.Error]. *)
Inductive error : Type :=
  | ErrNil
  | errorString (s : string)
  | protoError (s : string)
  | netError (s : string) (timeout temporary : bool).

Definition is_nil (e : error) : bool :=
  match e with ErrNil => true | _ => false end.

(** [_, ok := err.(net.Error)] *)
Definition is_net_Error (e : error) : bool :=
  match e with netError _ _ _ => true | _ => false end.

(** [errors.New] *)
Definition errors_New (s : string) : error := errorString s.

(** A value of the interface type [net.Conn]: nil, a stream implemented
    outside this file (what [net.Dial] returns, or what a caller hands to
    [NewConn]), or one of the two implementations of this file, each of
    which embeds a [net.Conn]. *)
Inductive net_Conn : Type :=
  | nilConn
  | extConn (fd : nat)
  | timeoutConn (c : net_Conn) (timeout : Z)
  | connLimited (c : net_Conn).

(** [*bufio.ReadWriter]: a pair of pointers to a reader and a writer. *)
Record bufio_ReadWriter : Type := { Reader : nat; Writer : nat }.

(** [connWrap]; [doL] is the address of the struct's mutex, which is what
    tells two [connWrap] values with equal fields apart. *)
Record connWrap : Type :=
  { Conn : net_Conn; brw : bufio_ReadWriter; doL : nat }.

(** ** The libraries the file imports

    [net], [time] and [bufio] are not part of the file: their operations
    are parameters, each a function on the state [W] of everything outside
    the program (network, clock, buffers). *)
Class Platform : Type := {
  W : Type;
  Time : Type;
  Addr : Type;
  time_Now : W -> Time * W;
  time_Add : Time -> Z -> Time;
  net_Dial : string -> string -> W -> (net_Conn * error) * W;
  net_DialTimeout : string -> string -> Z -> W -> (net_Conn * error) * W;
  ext_Read : nat -> list Byte.byte -> W -> (list Byte.byte * Z * error) * W;
  ext_Write : nat -> list Byte.byte -> W -> (Z * error) * W;
  ext_Close : nat -> W -> error * W;
  ext_LocalAddr : nat -> W -> Addr * W;
  ext_RemoteAddr : nat -> W -> Addr * W;
  ext_SetDeadline : nat -> Time -> W -> error * W;
  ext_SetReadDeadline : nat -> Time -> W -> error * W;
  ext_SetWriteDeadline : nat -> Time -> W -> error * W;
  bufio_NewReader : net_Conn -> W -> nat * W;
  bufio_NewWriter : net_Conn -> W -> nat * W;
  bufio_Flush : nat -> W -> error * W
}.

Section Model.
Context {P : Platform}.

(** A call into a library, as it appears in the trace. *)
Inductive Event : Type :=
  | EvNow
  | EvDial (network addr : string)
  | EvDialTimeout (network addr : string) (timeout : Z)
  | EvRead (fd : nat) (b : list Byte.byte)
  | EvWrite (fd : nat) (b : list Byte.byte)
  | EvClose (fd : nat)
  | EvLocalAddr (fd : nat)
  | EvRemoteAddr (fd : nat)
  | EvSetDeadline (fd : nat) (t : Time)
  | EvSetReadDeadline (fd : nat) (t : Time)
  | EvSetWriteDeadline (fd : nat) (t : Time)
  | EvNewReader (c : net_Conn)
  | EvNewWriter (c : net_Conn)
  | EvFlush (w : nat)
  | EvCodec (tag : string).

(** ** Programs *)

(** Atomic operations. *)
Inductive Op : Type -> Type :=
  | OLock (l : nat) : Op unit
  | OUnlock (l : nat) : Op unit
  | ONewMutex : Op nat
  | OExt {R : Type} (ev : Event) (f : W -> R * W) : Op R.

Inductive Prog (A : Type) : Type :=
  | Ret (a : A)
  | Panic (msg : string)
  | Vis {R : Type} (op : Op R) (k : R -> Prog A).

Arguments Ret {A} a.
Arguments Panic {A} msg.
Arguments Vis {A R} op k.

Fixpoint bind {A B : Type} (p : Prog A) (f : A -> Prog B) : Prog B :=
  match p with
  | Ret a => f a
  | Panic msg => Panic msg
  | Vis op k => Vis op (fun r => bind (k r) f)
  end.

Notation "x <- p ;; q" := (bind p (fun x => q))
  (at level 20, p at level 99, q at level 200, only parsing).
Notation "' pat <- p ;; q" := (bind p (fun x => match x with pat => q end))
  (at level 20, pat pattern, p at level 99, q at level 200, only parsing).
Notation "p ;;; q" := (bind p (fun _ => q))
  (at level 100, q at level 200, right associativity, only parsing).

(** [defer d] at the head of a function body [p]: [d] runs when [p]
    returns and when [p] panics, and the panic then goes on. *)
Fixpoint defer {A : Type} (d : Prog unit) (p : Prog A) : Prog A :=
  match p with
  | Ret a => d ;;; Ret a
  | Panic msg => d ;;; Panic msg
  | Vis op k => Vis op (fun r => defer d (k r))
  end.

Definition call {R : Type} (ev : Event) (f : W -> R * W) : Prog R :=
  Vis (OExt ev f) Ret.

(** [sync.Mutex] *)
Definition Lock (l : nat) : Prog unit := Vis (OLock l) Ret.
Definition Unlock (l : nat) : Prog unit := Vis (OUnlock l) Ret.
Definition NewMutex : Prog nat := Vis ONewMutex Ret.

(** ** State and the semantics of one goroutine *)

Record World : Type :=
  { ext : W; mutexes : list bool; log : list Event }.

Inductive Exec (R : Type) : Type :=
  | Step (r : R) (w : World)
  | Block
  | Fatal.

Arguments Step {R} r w.
Arguments Block {R}.
Arguments Fatal {R}.

Definition set_mutex (l : nat) (b : bool) (w : World) : World :=
  {| ext := ext w; mutexes := <[l := b]> (mutexes w); log := log w |}.

(** [Lock] waits while the mutex is held; [Unlock] of a mutex that is not
    held is the fatal error "sync: unlock of unlocked mutex". *)
Definition exec {R : Type} (op : Op R) (w : World) : Exec R :=
  match op in Op R return Exec R with
  | OLock l =>
      match mutexes w !! l with
      | Some false => Step tt (set_mutex l true w)
      | Some true => Block
      | None => Fatal
      end
  | OUnlock l =>
      match mutexes w !! l with
      | Some true => Step tt (set_mutex l false w)
      | _ => Fatal
      end
  | ONewMutex =>
      Step (length (mutexes w))
           {| ext := ext w; mutexes := mutexes w ++ [false]; log := log w |}
  | OExt ev f =>
      let (r, x) := f (ext w) in
      Step r {| ext := x; mutexes := mutexes w; log := log w ++ [ev] |}
  end.

Inductive Outcome (A : Type) : Type :=
  | Returned (a : A) (w : World)
  | Panicked (msg : string) (w : World)
  | Blocked (w : World)
  | Crashed (w : World).

Arguments Returned {A} a w.
Arguments Panicked {A} msg w.
Arguments Blocked {A} w.
Arguments Crashed {A} w.

(** One goroutine, alone: a [Lock] that has to wait waits for ever. *)
Fixpoint run {A : Type} (p : Prog A) (w : World) : Outcome A :=
  match p with
  | Ret a => Returned a w
  | Panic msg => Panicked msg w
  | Vis op k =>
      match exec op w with
      | Step r w' => run (k r) w'
      | Block => Blocked w
      | Fatal => Crashed w
      end
  end.

End Model.

Arguments Ret {P A} a.
Arguments Panic {P A} msg.
Arguments Vis {P A R} op k.
Arguments Step {P R} r w.
Arguments Block {P R}.
Arguments Fatal {P R}.
Arguments Returned {P A} a w.
Arguments Panicked {P A} msg w.
Arguments Blocked {P A} w.
Arguments Crashed {P A} w.

Notation "x <- p ;; q" := (bind p (fun x => q))
  (at level 20, p at level 99, q at level 200, only parsing).
Notation "' pat <- p ;; q" := (bind p (fun x => match x with pat => q end))
  (at level 20, pat pattern, p at level 99, q at level 200, only parsing).
Notation "p ;;; q" := (bind p (fun _ => q))
  (at level 100, q at level 200, right associativity, only parsing).

(** ** radix.go *)

Section Radix.
Context {P : Platform}.

Definition nil_deref : string :=
  "invalid memory address or nil pointer dereference".

(** The methods of [net.Conn] that neither [connLimited] nor [timeoutConn]
    declares are promoted from the embedded [net.Conn]. *)
Fixpoint Conn_SetDeadline (c : net_Conn) (t : Time) : Prog error :=
  match c with
  | nilConn => Panic nil_deref
  | extConn fd => call (EvSetDeadline fd t) (ext_SetDeadline fd t)
  | timeoutConn c' _ => Conn_SetDeadline c' t
  | connLimited c' => Conn_SetDeadline c' t
  end.

Fixpoint Conn_SetReadDeadline (c : net_Conn) (t : Time) : Prog error :=
  match c with
  | nilConn => Panic nil_deref
  | extConn fd => call (EvSetReadDeadline fd t) (ext_SetReadDeadline fd t)
  | timeoutConn c' _ => Conn_SetReadDeadline c' t
  | connLimited c' => Conn_SetReadDeadline c' t
  end.

Fixpoint Conn_SetWriteDeadline (c : net_Conn) (t : Time) : Prog error :=
  match c with
  | nilConn => Panic nil_deref
  | extConn fd => call (EvSetWriteDeadline fd t) (ext_SetWriteDeadline fd t)
  | timeoutConn c' _ => Conn_SetWriteDeadline c' t
  | connLimited c' => Conn_SetWriteDeadline c' t
  end.

Fixpoint Conn_LocalAddr (c : net_Conn) : Prog Addr :=
  match c with
  | nilConn => Panic nil_deref
  | extConn fd => call (EvLocalAddr fd) (ext_LocalAddr fd)
  | timeoutConn c' _ => Conn_LocalAddr c'
  | connLimited c' => Conn_LocalAddr c'
  end.

Fixpoint Conn_RemoteAddr (c : net_Conn) : Prog Addr :=
  match c with
  | nilConn => Panic nil_deref
  | extConn fd => call (EvRemoteAddr fd) (ext_RemoteAddr fd)
  | timeoutConn c' _ => Conn_RemoteAddr c'
  | connLimited c' => Conn_RemoteAddr c'
  end.

(** [func (tc *timeoutConn) setDeadline()]; the arguments are the two
    fields of [tc].  The error of [SetDeadline] is dropped. *)
Definition setDeadline (c : net_Conn) (timeout : Z) : Prog unit :=
  if 0 <? timeout then
    now <- call EvNow time_Now ;;
    _ <- Conn_SetDeadline c (time_Add now timeout) ;;
    Ret tt
  else Ret tt.

(** [Read(b)]: the result is the content of [b] after the call, the
    count and the error.
    - [connLimited.Read] returns [0] and a new error;
    - [timeoutConn.Read] is [tc.setDeadline(); return tc.Conn.Read(b)]. *)
Fixpoint Conn_Read (c : net_Conn) (b : list Byte.byte)
  : Prog (list Byte.byte * Z * error) :=
  match c with
  | nilConn => Panic nil_deref
  | extConn fd => call (EvRead fd b) (ext_Read fd b)
  | timeoutConn c' timeout => setDeadline c' timeout ;;; Conn_Read c' b
  | connLimited _ =>
      Ret (b, 0, errors_New
        "Read not allowed to be called on net.Conn returned from radix")
  end.

(** - [connLimited.Write] returns [0] and a new error;
    - [timeoutConn.Write] is [tc.setDeadline(); return tc.Conn.Write(b)]. *)
Fixpoint Conn_Write (c : net_Conn) (b : list Byte.byte) : Prog (Z * error) :=
  match c with
  | nilConn => Panic nil_deref
  | extConn fd => call (EvWrite fd b) (ext_Write fd b)
  | timeoutConn c' timeout => setDeadline c' timeout ;;; Conn_Write c' b
  | connLimited _ =>
      Ret (0, errors_New
        "Write not allowed to be called on net.Conn returned from radix")
  end.

(** [connLimited.Close] returns a new error; [timeoutConn] has no [Close]
    of its own. *)
Fixpoint Conn_Close (c : net_Conn) : Prog error :=
  match c with
  | nilConn => Panic nil_deref
  | extConn fd => call (EvClose fd) (ext_Close fd)
  | timeoutConn c' _ => Conn_Close c'
  | connLimited _ =>
      Ret (errors_New
        "Close not allowed to be called on net.Conn returned from radix")
  end.

(** [resp.Marshaler], [resp.Unmarshaler] and [Action]: one method each,
    the code of the caller. *)
Definition Marshaler : Type := bufio_ReadWriter -> Prog error.
Definition Unmarshaler : Type := nat -> Prog error.
Definition Action : Type := connWrap -> Prog error.

Definition MarshalRESP (m : Marshaler) (w : bufio_ReadWriter) : Prog error :=
  m w.
Definition UnmarshalRESP (u : Unmarshaler) (r : nat) : Prog error := u r.
Definition Run (a : Action) (c : connWrap) : Prog error := a c.

(** [cw.brw.Flush()], promoted from the [*bufio.Writer]. *)
Definition Flush (b : bufio_ReadWriter) : Prog error :=
  call (EvFlush (Writer b)) (bufio_Flush (Writer b)).

(** [func NewConn(conn net.Conn) Conn] *)
Definition NewConn (conn : net_Conn) : Prog connWrap :=
  r <- call (EvNewReader conn) (bufio_NewReader conn) ;;
  w <- call (EvNewWriter conn) (bufio_NewWriter conn) ;;
  l <- NewMutex ;;
  Ret {| Conn := conn; brw := {| Reader := r; Writer := w |}; doL := l |}.

(** [func (cw *connWrap) Do(a Action) error] *)
Definition Do (cw : connWrap) (a : Action) : Prog error :=
  Lock (doL cw) ;;;
  defer (Unlock (doL cw))
    (l <- NewMutex ;;
     let inner := {| Conn := Conn cw; brw := brw cw; doL := l |} in
     Run a inner).

(** [cw.Close()], promoted from the embedded [net.Conn]. *)
Definition Close (cw : connWrap) : Prog error := Conn_Close (Conn cw).

(** The closure deferred by [Encode], with the value [err] has when it
    runs. *)
Definition closeOnNetError (cw : connWrap) (err : error) : Prog unit :=
  if is_net_Error err then _ <- Close cw ;; Ret tt else Ret tt.

(** [func (cw *connWrap) Encode(m resp.Marshaler) error].  The [defer]
    statement comes after the call of [MarshalRESP], so a panic of the
    marshaler runs no deferred closure. *)
Definition Encode (cw : connWrap) (m : Marshaler) : Prog error :=
  err <- MarshalRESP m (brw cw) ;;
  if negb (is_nil err) then
    defer (closeOnNetError cw err) (Ret err)
  else
    err <- Flush (brw cw) ;;
    defer (closeOnNetError cw err) (Ret err).

(** [func (cw *connWrap) Decode(u resp.Unmarshaler) error] *)
Definition Decode (cw : connWrap) (u : Unmarshaler) : Prog error :=
  err <- UnmarshalRESP u (Reader (brw cw)) ;;
  (if is_net_Error err then _ <- Close cw ;; Ret tt else Ret tt) ;;;
  Ret err.

(** [func (cw *connWrap) NetConn() net.Conn] *)
Definition NetConn (cw : connWrap) : net_Conn := connLimited (Conn cw).

(** [func Dial(network, addr string) (Conn, error)]; the [Conn] is [None]
    for nil. *)
Definition Dial (network addr : string) : Prog (option connWrap * error) :=
  '(c, err) <- call (EvDial network addr) (net_Dial network addr) ;;
  if negb (is_nil err) then Ret (None, err)
  else cw <- NewConn c ;; Ret (Some cw, ErrNil).

(** [func DialTimeout(network, addr string, timeout time.Duration)] *)
Definition DialTimeout (network addr : string) (timeout : Z)
  : Prog (option connWrap * error) :=
  '(c, err) <- call (EvDialTimeout network addr timeout)
                    (net_DialTimeout network addr timeout) ;;
  if negb (is_nil err) then Ret (None, err)
  else cw <- NewConn (timeoutConn c timeout) ;; Ret (Some cw, ErrNil).

End Radix.

(** ** Goroutines *)

Section Goroutines.
Context {P : Platform}.

(** The mutexes a goroutine has locked and not unlocked yet, the last one
    first: bookkeeping of the semantics, no part of the Go state. *)
Fixpoint release (l : nat) (h : list nat) : list nat :=
  match h with
  | [] => []
  | l' :: h' => if decide (l = l') then h' else l' :: release l h'
  end.

Definition track {R : Type} (op : Op R) (h : list nat) : list nat :=
  match op with
  | OLock l => l :: h
  | OUnlock l => release l h
  | _ => h
  end.

Record goroutine : Type := { code : Prog error; held : list nat }.

(** One atomic operation of one goroutine.  A goroutine that waits for a
    mutex, has returned, or has panicked makes no step. *)
Definition step_goroutine (g : goroutine) (w : World)
  : option (goroutine * World) :=
  match code g with
  | Vis op k =>
      match exec op w with
      | Step r w' => Some ({| code := k r; held := track op (held g) |}, w')
      | _ => None
      end
  | _ => None
  end.

(** The scheduler picks any goroutine that can make a step. *)
Inductive sched_step
  : list goroutine * World -> list goroutine * World -> Prop :=
  | sched_go (gs : list goroutine) (w : World) (i : nat)
             (g g' : goroutine) (w' : World) :
      gs !! i = Some g ->
      step_goroutine g w = Some (g', w') ->
      sched_step (gs, w) (<[i := g']> gs, w').

Inductive reachable (c : list goroutine * World)
  : list goroutine * World -> Prop :=
  | reach_refl : reachable c c
  | reach_step (c1 c2 : list goroutine * World) :
      reachable c c1 -> sched_step c1 c2 -> reachable c c2.

(** A scheduler one can run: goroutine [i] makes a step if it can. *)
Definition sched (i : nat) (c : list goroutine * World)
  : list goroutine * World :=
  match c.1 !! i with
  | Some g =>
      match step_goroutine g c.2 with
      | Some (g', w') => (<[i := g']> c.1, w')
      | None => c
      end
  | None => c
  end.

Definition schedule (order : list nat) (c : list goroutine * World)
  : list goroutine * World :=
  fold_left (fun c i => sched i c) order c.

(** [go cw.Do(a)] *)
Definition go_Do (cw : connWrap) (a : Action) : goroutine :=
  {| code := Do cw a; held := [] |}.

(** The goroutines that are between the [Lock] and the [Unlock] of a [Do]
    on [cw]. *)
Definition inside (cw : connWrap) (gs : list goroutine) : nat :=
  length (filter (fun g => doL cw ∈ held g) gs).

(** A program that unlocks only the mutex it locked last and holds none
    when it ends (with [h] the mutexes it holds at the start).  The mutex
    of a [connWrap] is not exported: code outside the package reaches it
    through [Do] only, which is of this kind. *)
Definition permitted {R : Type} (op : Op R) (h : list nat) : Prop :=
  match op with
  | OUnlock l => head h = Some l
  | _ => True
  end.

Fixpoint balanced {A : Type} (h : list nat) (p : Prog A) : Prop :=
  match p with
  | Ret _ => h = []
  | Panic _ => h = []
  | Vis op k => permitted op h /\ forall r, balanced (track op h) (k r)
  end.

(** What holds of the goroutines and the mutexes at every moment: each
    goroutine is balanced for the mutexes it holds, holds none twice,
    holds held mutexes only, and no two goroutines hold the same mutex. *)
Definition lock_inv (c : list goroutine * World) : Prop :=
  (forall i g, c.1 !! i = Some g ->
     balanced (held g) (code g) /\ NoDup (held g)) /\
  (forall i g l, c.1 !! i = Some g -> l ∈ held g ->
     mutexes c.2 !! l = Some true) /\
  (forall i j gi gj l, c.1 !! i = Some gi -> c.1 !! j = Some gj ->
     l ∈ held gi -> l ∈ held gj -> i = j).

(** An action that calls [Do] on the [Conn] it is given, [n] levels
    deep, and runs [b] at the bottom. *)
Fixpoint nested (n : nat) (b : Action) : Action :=
  match n with
  | O => b
  | S n' => fun c => Do c (nested n' b)
  end.

(** Codecs and actions used as examples. *)
Definition marshal_fail (e : error) : Marshaler := fun _ => Ret e.
Definition unmarshal_fail (e : error) : Unmarshaler := fun _ => Ret e.
Definition action_ok : Action := fun _ => Ret ErrNil.
Definition action_encode (m : Marshaler) : Action := fun c => Encode c m.

(** The world after library calls [evs] that left the outside in state
    [x]. *)
Definition after (w : World) (evs : list Event) (x : W) : World :=
  {| ext := x; mutexes := mutexes w; log := log w ++ evs |}.

(** The world a run ends in. *)
Definition final {A : Type} (o : Outcome A) : World :=
  match o with
  | Returned _ w => w
  | Panicked _ w => w
  | Blocked w => w
  | Crashed w => w
  end.

(** The number of [Flush] calls in a trace. *)
Definition is_EvFlush (ev : Event) : bool :=
  match ev with EvFlush _ => true | _ => false end.

Definition flushes (t : list Event) : nat :=
  length (List.filter is_EvFlush t).

End Goroutines.

(** ** Vocabulary for the properties of the wrappers and of the lock *)

Section Vocabulary.
Context {P : Platform}.

(** The value at the bottom of a stack of [timeoutConn] and [connLimited]:
    a stream, or nil. *)
Fixpoint base (c : net_Conn) : net_Conn :=
  match c with
  | timeoutConn c' _ => base c'
  | connLimited c' => base c'
  | _ => c
  end.

(** Whether a [connLimited] is anywhere in the stack. *)
Fixpoint limited (c : net_Conn) : bool :=
  match c with
  | connLimited _ => true
  | timeoutConn c' _ => limited c'
  | _ => false
  end.

(** Counting calls in a trace. *)
Definition is_EvRead (ev : Event) : bool :=
  match ev with EvRead _ _ => true | _ => false end.
Definition is_EvWrite (ev : Event) : bool :=
  match ev with EvWrite _ _ => true | _ => false end.
Definition is_EvClose (ev : Event) : bool :=
  match ev with EvClose _ => true | _ => false end.

Definition calls (f : Event -> bool) (t : list Event) : nat :=
  length (List.filter f t).

(** A program with no mutex operation: library calls only. *)
Definition is_ext {R : Type} (op : Op R) : Prop :=
  match op with
  | OExt _ _ => True
  | _ => False
  end.

Fixpoint lockfree {A : Type} (p : Prog A) : Prop :=
  match p with
  | Vis op k => is_ext op /\ forall r, lockfree (k r)
  | _ => True
  end.

Definition set_mutexes (m : list bool) (w : World) : World :=
  {| ext := ext w; mutexes := m; log := log w |}.

Definition outcome_map {A : Type} (f : World -> World) (o : Outcome A)
  : Outcome A :=
  match o with
  | Returned a w => Returned a (f w)
  | Panicked msg w => Panicked msg (f w)
  | Blocked w => Blocked (f w)
  | Crashed w => Crashed (f w)
  end.

(** An action that panics. *)
Definition action_panic : Action := fun _ => Panic "boom".

(** A run that ends: by return or by panic. *)
Definition ends {A : Type} (o : Outcome A) : Prop :=
  match o with
  | Returned _ _ => True
  | Panicked _ _ => True
  | _ => False
  end.

(** A goroutine that has returned or panicked. *)
Definition ended (g : goroutine) : Prop :=
  match code g with
  | Vis _ _ => False
  | _ => True
  end.

(** Each mutex that was there at the start, with the state [m0] gives it:
    either no goroutine holds it and it is in that state, or it was free,
    is held now, and a goroutine holds it. *)
Definition own_inv (m0 : list bool) (c : list goroutine * World) : Prop :=
  forall l b0, m0 !! l = Some b0 ->
    (mutexes c.2 !! l = Some b0 /\
     forall i g, c.1 !! i = Some g -> l ∉ held g) \/
    (b0 = false /\ mutexes c.2 !! l = Some true /\
     exists i g, c.1 !! i = Some g /\ l ∈ held g).

End Vocabulary.

(** ** Actions that count themselves

    A counter somewhere outside the program, read by [count]; [enter] adds
    one to it and [leave] takes one off. *)

Section Counting.
Context {P : Platform}.
Variable count : W -> nat.
Variables enter leave : W -> unit * W.
Variables ev_enter ev_leave : Event.

(** A program that leaves the counter alone. *)
Definition op_quiet {R : Type} (op : Op R) : Prop :=
  match op with
  | OExt _ f => forall x, count (f x).2 = count x
  | _ => True
  end.

Fixpoint quiet {A : Type} (p : Prog A) : Prop :=
  match p with
  | Vis op k => op_quiet op /\ forall r, quiet (k r)
  | _ => True
  end.

(** The action
    [func(c Conn) error { enter(); defer leave(); return body.Run(c) }]:
    the counter is up by one for as long as [body] runs. *)
Definition counted (body : Action) : Action :=
  fun c => call ev_enter enter ;;; defer (call ev_leave leave) (Run body c).

Definition finished {A : Type} (p : Prog A) : Prop :=
  match p with
  | Vis _ _ => False
  | _ => True
  end.

(** Where a goroutine that runs [cw.Do(counted body)] is, and whether its
    [body] is running: before the [Lock]; after it; with the inner
    [connWrap] made; between [enter] and [leave]; after [leave]; at the
    end. *)
Inductive phase (cw : connWrap) : goroutine -> bool -> Prop :=
  | ph_start (body : Action) :
      (forall c, balanced [] (body c)) -> (forall c, quiet (body c)) ->
      phase cw {| code := Do cw (counted body); held := [] |} false
  | ph_locked (body : Action) :
      (forall c, balanced [] (body c)) -> (forall c, quiet (body c)) ->
      phase cw
        {| code :=
             defer (Unlock (doL cw))
               (l <- NewMutex ;;
                Run (counted body)
                    {| Conn := Conn cw; brw := brw cw; doL := l |});
           held := [doL cw] |} false
  | ph_ready (body : Action) (inner : connWrap) :
      (forall c, balanced [] (body c)) -> (forall c, quiet (body c)) ->
      phase cw
        {| code := defer (Unlock (doL cw)) (Run (counted body) inner);
           held := [doL cw] |} false
  | ph_body (h : list nat) (p : Prog error) :
      balanced h p -> quiet p ->
      phase cw
        {| code := defer (Unlock (doL cw)) (defer (call ev_leave leave) p);
           held := h ++ [doL cw] |} true
  | ph_left (q : Prog error) :
      finished q ->
      phase cw {| code := defer (Unlock (doL cw)) q; held := [doL cw] |} false
  | ph_ended (q : Prog error) :
      finished q ->
      phase cw {| code := q; held := [] |} false.

(** The counter is the number of goroutines whose [body] is running, and
    that number is zero or one. *)
Definition count_inv (cw : connWrap) (c : list goroutine * World) : Prop :=
  exists bs : list bool,
    Forall2 (phase cw) c.1 bs /\
    ((count (ext c.2) = O /\ forall i, bs !! i <> Some true) \/
     (count (ext c.2) = 1%nat /\ exists i, bs !! i = Some true)).

End Counting.

(** ** A small platform to run the code on

    One stream, [extConn 0], reachable at ["localhost:6379"]. *)

Record SimW : Type := {
  clock : Z;
  closed : bool;
  deadline : option Z;
  sent : list Byte.byte;
  pending : list Byte.byte;
  inbox : list Byte.byte
}.

Definition err_closed : error :=
  netError "use of closed network connection" false false.
Definition err_refused : error :=
  netError "dial tcp: connection refused" false false.
Definition err_timeout : error := netError "i/o timeout" true true.

Definition sim_dial (addr : string) (x : SimW) : (net_Conn * error) * SimW :=
  if String.eqb addr "localhost:6379" then ((extConn 0, ErrNil), x)
  else ((nilConn, err_refused), x).

Definition sim_Read (b : list Byte.byte) (x : SimW)
  : (list Byte.byte * Z * error) * SimW :=
  if closed x then ((b, 0, err_closed), x)
  else match inbox x with
       | [] => ((b, 0, err_timeout), x)
       | _ =>
           let n := Nat.min (length b) (length (inbox x)) in
           (((take n (inbox x) ++ drop n b)%list, Z.of_nat n, ErrNil),
            {| clock := clock x; closed := closed x; deadline := deadline x;
               sent := sent x; pending := pending x;
               inbox := drop n (inbox x) |})
       end.

Definition sim_Write (b : list Byte.byte) (x : SimW) : (Z * error) * SimW :=
  if closed x then ((0, err_closed), x)
  else ((Z.of_nat (length b), ErrNil),
        {| clock := clock x; closed := closed x; deadline := deadline x;
           sent := (sent x ++ b)%list; pending := pending x; inbox := inbox x |}).

Definition sim_Close (x : SimW) : error * SimW :=
  if closed x then (err_closed, x)
  else (ErrNil,
        {| clock := clock x; closed := true; deadline := deadline x;
           sent := sent x; pending := pending x; inbox := inbox x |}).

Definition sim_SetDeadline (t : Z) (x : SimW) : error * SimW :=
  if closed x then (err_closed, x)
  else (ErrNil,
        {| clock := clock x; closed := closed x; deadline := Some t;
           sent := sent x; pending := pending x; inbox := inbox x |}).

Definition sim_Now (x : SimW) : Z * SimW :=
  (clock x,
   {| clock := clock x + 1; closed := closed x; deadline := deadline x;
      sent := sent x; pending := pending x; inbox := inbox x |}).

Definition sim_Flush (x : SimW) : error * SimW :=
  match pending x with
  | [] => (ErrNil, x)
  | bs =>
      if closed x then (err_closed, x)
      else (ErrNil,
            {| clock := clock x; closed := closed x; deadline := deadline x;
               sent := (sent x ++ bs)%list; pending := []; inbox := inbox x |})
  end.

Definition sim : Platform := {|
  W := SimW;
  Time := Z;
  Addr := string;
  time_Now := sim_Now;
  time_Add := Z.add;
  net_Dial := fun _ addr => sim_dial addr;
  net_DialTimeout := fun _ addr _ => sim_dial addr;
  ext_Read := fun _ => sim_Read;
  ext_Write := fun _ => sim_Write;
  ext_Close := fun _ => sim_Close;
  ext_LocalAddr := fun _ x => ("127.0.0.1:50000", x);
  ext_RemoteAddr := fun _ x => ("127.0.0.1:6379", x);
  ext_SetDeadline := fun _ => sim_SetDeadline;
  ext_SetReadDeadline := fun _ => sim_SetDeadline;
  ext_SetWriteDeadline := fun _ => sim_SetDeadline;
  bufio_NewReader := fun _ x => (0%nat, x);
  bufio_NewWriter := fun _ x => (1%nat, x);
  bufio_Flush := fun _ => sim_Flush
|}.

Definition sim0 : SimW :=
  {| clock := 1000; closed := false; deadline := None;
     sent := []; pending := []; inbox := [] |}.

(** A world with one stream and the mutex of one [connWrap], not held. *)
Definition world0 : World (P := sim) :=
  @Build_World sim sim0 [false] [].

Definition cw0 : connWrap :=
  {| Conn := extConn 0; brw := {| Reader := 0; Writer := 1 |}; doL := 0 |}.

Definition world_of (x : SimW) (m : list bool) (t : list (Event (P := sim)))
  : World (P := sim) :=
  @Build_World sim x m t.

Definition sim_closed : SimW :=
  {| clock := 1000; closed := true; deadline := None;
     sent := []; pending := []; inbox := [] |}.

(** A marshaler that writes [bs] into the buffer. *)
Definition sim_marshal (bs : list Byte.byte) : Marshaler (P := sim) :=
  fun _ =>
    call (P := sim) (EvCodec "MarshalRESP")
      (fun x : SimW =>
         (ErrNil,
          {| clock := clock x; closed := closed x; deadline := deadline x;
             sent := sent x; pending := (pending x ++ bs)%list;
             inbox := inbox x |})).

(** A counter on this platform: the number of bytes waiting in [inbox]. *)
Definition sim_count (x : SimW) : nat := length (inbox x).

Definition sim_enter (x : SimW) : unit * SimW :=
  (tt, {| clock := clock x; closed := closed x; deadline := deadline x;
          sent := sent x; pending := pending x;
          inbox := Byte.x00 :: inbox x |}).

Definition sim_leave (x : SimW) : unit * SimW :=
  (tt, {| clock := clock x; closed := closed x; deadline := deadline x;
          sent := sent x; pending := pending x;
          inbox := tail (inbox x) |}).

Definition sim_counted : Action (P := sim) -> Action (P := sim) :=
  counted (P := sim) sim_enter sim_leave (EvCodec "enter") (EvCodec "leave").

(** Two goroutines on [cw0]: one action does nothing, one encodes. *)
Definition pool0 : list (goroutine (P := sim)) :=
  go_Do cw0 <$> [action_ok; action_encode (sim_marshal [Byte.x2a])].

(** The same two goroutines, with the counter incremented and decremented
    around each action. *)
Definition pool1 : list (goroutine (P := sim)) :=
  go_Do cw0 <$>
    (sim_counted <$> [action_ok; action_encode (sim_marshal [Byte.x2a])]).

(** The two counted actions run by goroutines that do not go through
    [Do]. *)
Definition pool_bare : list (goroutine (P := sim)) :=
  (fun a : Action (P := sim) => {| code := Run a cw0; held := [] |}) <$>
    (sim_counted <$> [action_ok; action_encode (sim_marshal [Byte.x2a])]).

(** * Properties *)

Section Semantics.
Context {P : Platform}.

Lemma run_bind {A B : Type} (p : Prog A) (f : A -> Prog B) (w : World) :
  run (bind p f) w =
  match run p w with
  | Returned a w' => run (f a) w'
  | Panicked msg w' => Panicked msg w'
  | Blocked w' => Blocked w'
  | Crashed w' => Crashed w'
  end.
Proof.
  revert w. induction p as [a|msg|R op k IH]; intros w; simpl; try reflexivity.
  destruct (exec op w) as [r w'| |]; auto.
Qed.

Lemma run_defer {A : Type} (d : Prog unit) (p : Prog A) (w : World) :
  run (defer d p) w =
  match run p w with
  | Returned a w' => run (d ;;; Ret a) w'
  | Panicked msg w' => run (d ;;; Panic (A := A) msg) w'
  | Blocked w' => Blocked w'
  | Crashed w' => Crashed w'
  end.
Proof.
  revert w. induction p as [a|msg|R op k IH]; intros w; simpl; try reflexivity.
  destruct (exec op w) as [r w'| |]; auto.
Qed.

Lemma run_call {R : Type} (ev : Event) (f : W -> R * W) (w : World) :
  run (call ev f) w = Returned (f (ext w)).1 (after w [ev] (f (ext w)).2).
Proof.
  unfold call, after. simpl. destruct (f (ext w)) as [r x]. reflexivity.
Qed.

Lemma after_after (w : World) (e1 e2 : list Event) (x1 x2 : W) :
  after (after w e1 x1) e2 x2 = after w (e1 ++ e2) x2.
Proof. unfold after. simpl. rewrite <- app_assoc. reflexivity. Qed.

Lemma after_nil (w : World) : after w [] (ext w) = w.
Proof. destruct w. unfold after. simpl. rewrite app_nil_r. reflexivity. Qed.

End Semantics.

(** ** The restricted stream view and the deadline-enforcing stream *)

Section Streams.
Context {P : Platform}.

(** C6.  On the value [NetConn] returns, [Read] and [Write] fail with an
    error made by [errors.New], which is no [net.Error], and transfer zero
    bytes ([Read] leaves the slice as it was), and [Close] fails in the
    same way; each call returns in the world it started in: nothing
    outside changed, no library call in the trace. *)
Theorem NetConn_refuses (cw : connWrap) (b : list Byte.byte) (w : World) :
  run (Conn_Read (NetConn cw) b) w =
    Returned (b, 0, errorString
      "Read not allowed to be called on net.Conn returned from radix") w /\
  run (Conn_Write (NetConn cw) b) w =
    Returned (0, errorString
      "Write not allowed to be called on net.Conn returned from radix") w /\
  run (Conn_Close (NetConn cw)) w =
    Returned (errorString
      "Close not allowed to be called on net.Conn returned from radix") w.
Proof. repeat split. Qed.

Lemma run_setDeadline_pos (fd : nat) (d : Z) (w : World) :
  0 < d ->
  let now := (time_Now (ext w)).1 in
  let t := time_Add now d in
  run (setDeadline (extConn fd) d) w =
    Returned tt
      (after w [EvNow; EvSetDeadline fd t]
         (ext_SetDeadline fd t (time_Now (ext w)).2).2).
Proof.
  intros Hd now t. unfold setDeadline.
  destruct (Z.ltb_spec 0 d) as [_|]; [|lia].
  rewrite run_bind, run_call. simpl Conn_SetDeadline.
  rewrite run_bind, run_call. simpl. rewrite after_after. reflexivity.
Qed.

Lemma run_setDeadline_nonpos (c : net_Conn) (d : Z) (w : World) :
  d <= 0 -> run (setDeadline c d) w = Returned tt w.
Proof.
  intros Hd. unfold setDeadline.
  destruct (Z.ltb_spec 0 d) as [|_]; [lia|]. reflexivity.
Qed.

(** C7.  [Read] and [Write] of a [timeoutConn] over a stream [fd] with
    timeout [d].  If [0 < d]: the clock is read, [SetDeadline] is called
    on the stream with that time plus [d], then the one [Read] (or
    [Write]) of the stream is made, in this order, and its result is the
    result of the call, whatever it is.  If [d <= 0]: the call is the
    [Read] (or [Write]) of the embedded stream and nothing else. *)
Theorem timeoutConn_deadline (fd : nat) (d : Z) (b : list Byte.byte)
    (w : World) :
  (0 < d ->
   let now := (time_Now (ext w)).1 in
   let t := time_Add now d in
   let x := (ext_SetDeadline fd t (time_Now (ext w)).2).2 in
   run (Conn_Read (timeoutConn (extConn fd) d) b) w =
     Returned (ext_Read fd b x).1
       (after w [EvNow; EvSetDeadline fd t; EvRead fd b]
          (ext_Read fd b x).2) /\
   run (Conn_Write (timeoutConn (extConn fd) d) b) w =
     Returned (ext_Write fd b x).1
       (after w [EvNow; EvSetDeadline fd t; EvWrite fd b]
          (ext_Write fd b x).2)) /\
  (d <= 0 ->
   (forall c : net_Conn,
      run (Conn_Read (timeoutConn c d) b) w = run (Conn_Read c b) w /\
      run (Conn_Write (timeoutConn c d) b) w = run (Conn_Write c b) w) /\
   run (Conn_Read (timeoutConn (extConn fd) d) b) w =
     Returned (ext_Read fd b (ext w)).1
       (after w [EvRead fd b] (ext_Read fd b (ext w)).2) /\
   run (Conn_Write (timeoutConn (extConn fd) d) b) w =
     Returned (ext_Write fd b (ext w)).1
       (after w [EvWrite fd b] (ext_Write fd b (ext w)).2)).
Proof.
  split.
  - intros Hd now t x. split; simpl Conn_Read; simpl Conn_Write;
      rewrite run_bind, (run_setDeadline_pos fd d w Hd);
      cbv zeta; rewrite run_call, after_after; reflexivity.
  - intros Hd.
    assert (Hc : forall c : net_Conn,
      run (Conn_Read (timeoutConn c d) b) w = run (Conn_Read c b) w /\
      run (Conn_Write (timeoutConn c d) b) w = run (Conn_Write c b) w).
    { intros c. split; simpl Conn_Read; simpl Conn_Write;
        rewrite run_bind, (run_setDeadline_nonpos c d w Hd); reflexivity. }
    split; [exact Hc|].
    destruct (Hc (extConn fd)) as [Hr Hw]. rewrite Hr, Hw.
    split; cbn [Conn_Read Conn_Write]; rewrite run_call; reflexivity.
Qed.

End Streams.

(** ** Encode and Decode *)

Section Codec.
Context {P : Platform}.

Lemma flushes_app (t1 t2 : list Event) :
  flushes (t1 ++ t2) = (flushes t1 + flushes t2)%nat.
Proof. unfold flushes. rewrite List.filter_app, length_app. reflexivity. Qed.

(** [Close] of a stream never flushes: it leaves the outside alone or
    calls the [Close] of the library once. *)
Lemma Conn_Close_trace (c : net_Conn) (w : World) :
  flushes (log (final (run (Conn_Close c) w))) = flushes (log w).
Proof.
  induction c as [|fd|c IH d|c IH]; simpl Conn_Close; try reflexivity; auto.
  rewrite run_call. unfold final, after. cbn [log]. rewrite flushes_app.
  change (flushes [EvClose fd]) with 0%nat. lia.
Qed.

Lemma run_Close_then (cw : connWrap) (err : error) (w : World) :
  flushes (log (final (run (Close cw ;;; Ret err) w))) = flushes (log w).
Proof.
  rewrite run_bind. pose proof (Conn_Close_trace (Conn cw) w) as H.
  unfold Close. destruct (run (Conn_Close (Conn cw)) w); exact H.
Qed.

Lemma run_closeOnNetError (cw : connWrap) (err : error) (w : World) :
  run (defer (closeOnNetError cw err) (Ret err)) w =
  if is_net_Error err then run (Close cw ;;; Ret err) w else Returned err w.
Proof.
  unfold closeOnNetError. simpl defer.
  destruct (is_net_Error err); [|reflexivity].
  rewrite !run_bind. destruct (run (Close cw) w); reflexivity.
Qed.

Lemma run_Encode_error (cw : connWrap) (m : Marshaler) (w w1 : World)
    (err : error) :
  run (MarshalRESP m (brw cw)) w = Returned err w1 ->
  is_nil err = false ->
  run (Encode cw m) w =
  if is_net_Error err then run (Close cw ;;; Ret err) w1 else Returned err w1.
Proof.
  intros Hm Hnil. unfold Encode. rewrite run_bind, Hm, Hnil.
  simpl negb. cbv iota. apply run_closeOnNetError.
Qed.

Lemma run_Encode_flush (cw : connWrap) (m : Marshaler) (w w1 : World) :
  run (MarshalRESP m (brw cw)) w = Returned ErrNil w1 ->
  let r := bufio_Flush (Writer (brw cw)) (ext w1) in
  let w2 := after w1 [EvFlush (Writer (brw cw))] r.2 in
  run (Encode cw m) w =
  if is_net_Error r.1 then run (Close cw ;;; Ret r.1) w2 else Returned r.1 w2.
Proof.
  intros Hm r w2. unfold Encode. rewrite run_bind, Hm.
  simpl negb. cbv iota. unfold Flush. rewrite run_bind, run_call.
  apply run_closeOnNetError.
Qed.

(** C1.  [Encode] and [Decode] on a [connWrap].  With [err] the error of
    the marshaler (when it is not nil), of [Flush] (when the marshaler
    returned nil) or of the unmarshaler, and [w1] the world that call
    left: if [err] is a [net.Error], the call goes on as [cw.Close()]
    from [w1] and then returns [err] itself, so on a stream [fd], with or
    without a [timeoutConn] around it, it returns [err] after one [Close]
    of [fd]; if [err] is no [net.Error], the call returns [err] in [w1],
    with no [Close]. *)
Theorem codec_error_closes (cw : connWrap) (m : Marshaler) (u : Unmarshaler)
    (w w1 : World) (err : error) :
  let closing (e : error) (w' : World) : Outcome error :=
    if is_net_Error e then run (Close cw ;;; Ret e) w' else Returned e w' in
  (run (MarshalRESP m (brw cw)) w = Returned err w1 -> is_nil err = false ->
   run (Encode cw m) w = closing err w1) /\
  (run (MarshalRESP m (brw cw)) w = Returned ErrNil w1 ->
   let r := bufio_Flush (Writer (brw cw)) (ext w1) in
   run (Encode cw m) w =
     closing r.1 (after w1 [EvFlush (Writer (brw cw))] r.2)) /\
  (run (UnmarshalRESP u (Reader (brw cw))) w = Returned err w1 ->
   run (Decode cw u) w = closing err w1) /\
  (forall (fd : nat) (d : Z) (e : error) (w' : World),
     Conn cw = extConn fd \/ Conn cw = timeoutConn (extConn fd) d ->
     is_net_Error e = true ->
     closing e w' = Returned e (after w' [EvClose fd] (ext_Close fd (ext w')).2)).
Proof.
  intros closing. repeat split.
  - intros Hm Hnil. apply run_Encode_error; assumption.
  - intros Hm r. apply run_Encode_flush; assumption.
  - intros Hu. unfold Decode, closing. rewrite run_bind, Hu.
    destruct (is_net_Error err); [|reflexivity].
    rewrite !run_bind. destruct (run (Close cw) w1); reflexivity.
  - intros fd d e w' Hc He. unfold closing, Close. rewrite He.
    destruct Hc as [Hc|Hc]; rewrite Hc; cbn [Conn_Close];
      rewrite run_bind, run_call; reflexivity.
Qed.

(** C9.  If the marshaler returns an error that is not nil, leaving the
    world [w1], [Encode] returns that error and the trace has no [Flush]
    call more than it had in [w1]; when the error is no [net.Error] the
    world is [w1] itself.  If the marshaler returns nil, the trace has
    one [Flush] call more. *)
Theorem Encode_flushes_after_marshal_only (cw : connWrap) (m : Marshaler)
    (w w1 : World) (err : error) :
  run (MarshalRESP m (brw cw)) w = Returned err w1 ->
  (is_nil err = false ->
   flushes (log (final (run (Encode cw m) w))) = flushes (log w1) /\
   (is_net_Error err = false -> run (Encode cw m) w = Returned err w1) /\
   (forall e w2, run (Encode cw m) w = Returned e w2 -> e = err)) /\
  (is_nil err = true ->
   flushes (log (final (run (Encode cw m) w))) = S (flushes (log w1))).
Proof.
  intros Hm. split.
  - intros Hnil. rewrite (run_Encode_error cw m w w1 err Hm Hnil).
    destruct (is_net_Error err) eqn:Hnet.
    + split; [apply run_Close_then|]. split; [discriminate|].
      intros e w2. rewrite run_bind.
      destruct (run (Close cw) w1); simpl; congruence.
    + repeat split; simpl; congruence.
  - intros Hnil. destruct err; try discriminate.
    rewrite (run_Encode_flush cw m w w1 Hm). cbv zeta.
    set (r := bufio_Flush (Writer (brw cw)) (ext w1)).
    destruct (is_net_Error r.1).
    + rewrite run_Close_then. unfold after. cbn [log]. rewrite flushes_app.
      change (flushes [EvFlush (Writer (brw cw))]) with 1%nat. lia.
    + unfold final, after. cbn [log]. rewrite flushes_app.
      change (flushes [EvFlush (Writer (brw cw))]) with 1%nat. lia.
Qed.

End Codec.

(** ** The factories *)

Section Factories.
Context {P : Platform}.

Lemma run_NewConn (c : net_Conn) (w : World) :
  let r := bufio_NewReader c (ext w) in
  let wr := bufio_NewWriter c r.2 in
  run (NewConn c) w =
    Returned
      {| Conn := c; brw := {| Reader := r.1; Writer := wr.1 |};
         doL := length (mutexes w) |}
      {| ext := wr.2; mutexes := mutexes w ++ [false];
         log := log w ++ [EvNewReader c; EvNewWriter c] |}.
Proof.
  intros r wr. unfold NewConn. rewrite run_bind, run_call.
  rewrite run_bind, run_call. simpl. rewrite <- app_assoc. reflexivity.
Qed.

Lemma run_Dial_error (network addr : string) (w : World) :
  let d := net_Dial network addr (ext w) in
  is_nil d.1.2 = false ->
  run (Dial network addr) w =
    Returned (None, d.1.2) (after w [EvDial network addr] d.2).
Proof.
  intros d Hnil. unfold Dial. rewrite run_bind, run_call. fold d.
  destruct d as [[c err] x]. simpl in *. rewrite Hnil. reflexivity.
Qed.

Lemma run_DialTimeout_error (network addr : string) (timeout : Z)
    (w : World) :
  let d := net_DialTimeout network addr timeout (ext w) in
  is_nil d.1.2 = false ->
  run (DialTimeout network addr timeout) w =
    Returned (None, d.1.2)
      (after w [EvDialTimeout network addr timeout] d.2).
Proof.
  intros d Hnil. unfold DialTimeout. rewrite run_bind, run_call. fold d.
  destruct d as [[c err] x]. simpl in *. rewrite Hnil. reflexivity.
Qed.

Lemma run_Dial_ok (network addr : string) (w : World) :
  let d := net_Dial network addr (ext w) in
  is_nil d.1.2 = true ->
  exists (cw : connWrap) (w' : World),
    run (NewConn d.1.1) (after w [EvDial network addr] d.2) = Returned cw w' /\
    run (Dial network addr) w = Returned (Some cw, ErrNil) w' /\
    Conn cw = d.1.1 /\
    log w' = log w ++ [EvDial network addr;
                       EvNewReader d.1.1; EvNewWriter d.1.1].
Proof.
  intros d Hnil. unfold Dial. rewrite run_bind, run_call. fold d.
  destruct d as [[c err] x]. simpl in Hnil. cbn [fst snd].
  rewrite Hnil. simpl negb. cbv iota.
  rewrite run_bind, run_NewConn. cbv zeta.
  eexists _, _. repeat split. simpl. rewrite <- app_assoc. reflexivity.
Qed.

Lemma run_DialTimeout_ok (network addr : string) (timeout : Z) (w : World) :
  let d := net_DialTimeout network addr timeout (ext w) in
  let tc := timeoutConn d.1.1 timeout in
  is_nil d.1.2 = true ->
  exists (cw : connWrap) (w' : World),
    run (NewConn tc) (after w [EvDialTimeout network addr timeout] d.2) =
      Returned cw w' /\
    run (DialTimeout network addr timeout) w = Returned (Some cw, ErrNil) w' /\
    Conn cw = tc /\
    log w' = log w ++ [EvDialTimeout network addr timeout;
                       EvNewReader tc; EvNewWriter tc].
Proof.
  intros d tc Hnil. unfold DialTimeout. rewrite run_bind, run_call. fold d.
  subst tc. destruct d as [[c err] x]. simpl in Hnil. cbn [fst snd].
  rewrite Hnil. simpl negb. cbv iota.
  rewrite run_bind, run_NewConn. cbv zeta.
  eexists _, _. repeat split. simpl. rewrite <- app_assoc. reflexivity.
Qed.

(** C8.  [Dial] and [DialTimeout] call [net.Dial] (or [net.DialTimeout])
    once.  If its error is not nil, they return a nil [Conn] and that
    error and do nothing else: no second dial, no [NewConn].  If its error
    is nil, they return what [NewConn] returns and a nil error, [NewConn]
    being applied to the stream itself by [Dial] and to a [timeoutConn]
    around the stream, with the timeout of the caller, by [DialTimeout]. *)
Theorem Dial_fails_or_wraps (network addr : string) (timeout : Z)
    (w : World) :
  let d := net_Dial network addr (ext w) in
  let dt := net_DialTimeout network addr timeout (ext w) in
  let tc := timeoutConn dt.1.1 timeout in
  (is_nil d.1.2 = false ->
   run (Dial network addr) w =
     Returned (None, d.1.2) (after w [EvDial network addr] d.2)) /\
  (is_nil dt.1.2 = false ->
   run (DialTimeout network addr timeout) w =
     Returned (None, dt.1.2)
       (after w [EvDialTimeout network addr timeout] dt.2)) /\
  (is_nil d.1.2 = true ->
   exists (cw : connWrap) (w' : World),
     run (NewConn d.1.1) (after w [EvDial network addr] d.2) =
       Returned cw w' /\
     run (Dial network addr) w = Returned (Some cw, ErrNil) w' /\
     Conn cw = d.1.1 /\
     log w' = log w ++ [EvDial network addr;
                        EvNewReader d.1.1; EvNewWriter d.1.1]) /\
  (is_nil dt.1.2 = true ->
   exists (cw : connWrap) (w' : World),
     run (NewConn tc) (after w [EvDialTimeout network addr timeout] dt.2) =
       Returned cw w' /\
     run (DialTimeout network addr timeout) w =
       Returned (Some cw, ErrNil) w' /\
     Conn cw = tc /\
     log w' = log w ++ [EvDialTimeout network addr timeout;
                        EvNewReader tc; EvNewWriter tc]).
Proof.
  intros d dt tc. split; [|split; [|split]].
  - apply run_Dial_error.
  - apply run_DialTimeout_error.
  - apply run_Dial_ok.
  - apply run_DialTimeout_ok.
Qed.

(** C10.  [DialTimeout] uses its [timeout] twice.  The dial it makes is
    [net.DialTimeout] with that [timeout].  And the [Conn] it returns
    holds a [timeoutConn] with that same [timeout] around the dialled
    stream, over which the buffered reader and writer were made, so that
    with [0 < timeout] each [Read] and [Write] on it sets the deadline of
    the stream to the time of the call plus [timeout]. *)
Theorem DialTimeout_timeout_twice (network addr : string) (timeout : Z)
    (b : list Byte.byte) (w : World) :
  let dt := net_DialTimeout network addr timeout (ext w) in
  (exists evs : list Event,
     log (final (run (DialTimeout network addr timeout) w)) =
     log w ++ EvDialTimeout network addr timeout :: evs) /\
  (forall (cw : connWrap) (w' : World),
     run (DialTimeout network addr timeout) w = Returned (Some cw, ErrNil) w' ->
     Conn cw = timeoutConn dt.1.1 timeout /\
     log w' = log w ++ [EvDialTimeout network addr timeout;
                        EvNewReader (Conn cw); EvNewWriter (Conn cw)] /\
     (forall (fd : nat) (w2 : World),
        dt.1.1 = extConn fd -> 0 < timeout ->
        let t := time_Add (time_Now (ext w2)).1 timeout in
        log (final (run (Conn_Read (Conn cw) b) w2)) =
          log w2 ++ [EvNow; EvSetDeadline fd t; EvRead fd b] /\
        log (final (run (Conn_Write (Conn cw) b) w2)) =
          log w2 ++ [EvNow; EvSetDeadline fd t; EvWrite fd b])).
Proof.
  intros dt.
  destruct (is_nil dt.1.2) eqn:Hnil.
  - destruct (run_DialTimeout_ok network addr timeout w Hnil)
      as (cw0 & w0 & _ & Hrun & HConn & Hlog).
    fold dt in Hrun, HConn, Hlog. split.
    + rewrite Hrun. simpl final. rewrite Hlog. eexists. reflexivity.
    + intros cw w' Hret. rewrite Hrun in Hret. injection Hret as -> ->.
      split; [exact HConn|]. split; [rewrite HConn; exact Hlog|].
      intros fd w2 Hfd Hpos t. rewrite HConn, Hfd.
      cbn [Conn_Read Conn_Write].
      rewrite !run_bind, (run_setDeadline_pos fd timeout w2 Hpos).
      cbv zeta. rewrite !run_call. unfold final, after. cbn [log].
      rewrite <- !app_assoc. split; reflexivity.
  - pose proof (run_DialTimeout_error network addr timeout w Hnil) as Hrun.
    fold dt in Hrun. split.
    + rewrite Hrun. simpl. eexists. reflexivity.
    + intros cw w' Hret. rewrite Hrun in Hret. discriminate.
Qed.

End Factories.

(** ** Do *)

Section Locking.
Context {P : Platform}.

Lemma balanced_bind {A B : Type} (p : Prog A) (f : A -> Prog B)
    (h : list nat) :
  balanced h p -> (forall a, balanced [] (f a)) -> balanced h (bind p f).
Proof.
  revert h. induction p as [a|msg|R op k IH]; intros h Hp Hf; simpl in *.
  - subst h. apply Hf.
  - exact Hp.
  - destruct Hp as [Hop Hk]. split; [exact Hop|].
    intros r. apply IH; [apply Hk|exact Hf].
Qed.

Lemma track_app {R : Type} (op : Op R) (h : list nat) (l : nat) :
  permitted op h -> track op (h ++ [l]) = track op h ++ [l].
Proof.
  destruct op as [l'|l'| |R ev f]; simpl; try reflexivity.
  destruct h as [|l0 h]; simpl; [discriminate|].
  intros [= ->]. destruct (decide (l' = l')); [reflexivity|congruence].
Qed.

Lemma permitted_app {R : Type} (op : Op R) (h : list nat) (l : nat) :
  permitted op h -> permitted op (h ++ [l]).
Proof.
  destruct op as [l'|l'| |R ev f]; simpl; try tauto.
  destruct h; simpl; [discriminate|tauto].
Qed.

Lemma balanced_defer {A : Type} (p : Prog A) (h : list nat) (l : nat) :
  balanced h p -> balanced (h ++ [l]) (defer (Unlock l) p).
Proof.
  revert h. induction p as [a|msg|R op k IH]; intros h Hp; simpl in *.
  - subst h. simpl. destruct (decide (l = l)); [auto|congruence].
  - subst h. simpl. destruct (decide (l = l)); [auto|congruence].
  - destruct Hp as [Hop Hk]. split; [apply permitted_app; exact Hop|].
    intros r. rewrite track_app by exact Hop. apply IH, Hk.
Qed.

Lemma balanced_Do (cw : connWrap) (a : Action) :
  (forall c, balanced [] (a c)) -> balanced [] (Do cw a).
Proof.
  intros Ha. unfold Do, Lock. simpl. split; [exact I|]. intros _.
  split; [exact I|]. intros l. apply (balanced_defer _ [] (doL cw)), Ha.
Qed.

Lemma balanced_call {R : Type} (ev : Event) (f : W -> R * W) :
  balanced [] (call ev f).
Proof. simpl. auto. Qed.

Lemma balanced_nested (n : nat) (b : Action) :
  (forall c, balanced [] (b c)) -> forall c, balanced [] (nested n b c).
Proof.
  intros Hb. induction n as [|n IH]; intros c; simpl; [apply Hb|].
  apply balanced_Do, IH.
Qed.

Lemma balanced_Conn_Close (c : net_Conn) : balanced [] (Conn_Close c).
Proof. induction c; simpl; auto. Qed.

Lemma balanced_closeOnNetError (cw : connWrap) (err : error) :
  balanced [] (defer (closeOnNetError cw err) (Ret err)).
Proof.
  simpl. apply balanced_bind; [|reflexivity]. unfold closeOnNetError.
  destruct (is_net_Error err); [|reflexivity].
  apply balanced_bind; [apply balanced_Conn_Close|reflexivity].
Qed.

(** [Encode] and [Decode] with balanced codecs are balanced: an action
    made of [Do], [Encode], [Decode], [Close] and library calls is. *)
Lemma balanced_Encode (cw : connWrap) (m : Marshaler) :
  (forall b, balanced [] (m b)) -> balanced [] (Encode cw m).
Proof.
  intros Hm. unfold Encode. apply balanced_bind; [apply Hm|].
  intros err. destruct (negb (is_nil err)).
  - apply balanced_closeOnNetError.
  - apply balanced_bind; [apply balanced_call|].
    intros e. apply balanced_closeOnNetError.
Qed.

Lemma balanced_Decode (cw : connWrap) (u : Unmarshaler) :
  (forall r, balanced [] (u r)) -> balanced [] (Decode cw u).
Proof.
  intros Hu. unfold Decode. apply balanced_bind; [apply Hu|].
  intros err. apply balanced_bind; [|reflexivity].
  destruct (is_net_Error err); [|reflexivity].
  apply balanced_bind; [apply balanced_Conn_Close|reflexivity].
Qed.

(** A balanced program that ends leaves every mutex that was there as it
    found it, but for those it held at the start, which it has unlocked. *)
Lemma balanced_run {A : Type} (p : Prog A) (h : list nat) (w : World) :
  balanced h p ->
  forall w', (exists a, run p w = Returned a w') \/
             (exists msg, run p w = Panicked msg w') ->
  forall (l : nat) (b : bool),
    mutexes w !! l = Some b ->
    mutexes w' !! l = Some (if bool_decide (l ∈ h) then false else b).
Proof.
  revert h w. induction p as [a|msg|R op k IH]; intros h w Hp w' Hrun l b Hl.
  - simpl in Hp. subst h. simpl in Hrun.
    destruct Hrun as [[a' Hr]|[m Hr]]; [|discriminate].
    injection Hr as _ <-. rewrite bool_decide_eq_false_2 by apply not_elem_of_nil.
    exact Hl.
  - simpl in Hp. subst h. simpl in Hrun.
    destruct Hrun as [[a' Hr]|[m Hr]]; [discriminate|].
    injection Hr as _ <-. rewrite bool_decide_eq_false_2 by apply not_elem_of_nil.
    exact Hl.
  - simpl in Hp. destruct Hp as [Hop Hk]. simpl in Hrun.
    destruct op as [l0|l0| |R ev f]; simpl in Hrun, Hop, Hk.
    + destruct (mutexes w !! l0) as [[|]|] eqn:Hl0;
        try (destruct Hrun as [[? Hr]|[? Hr]]; discriminate).
      specialize (IH tt (l0 :: h) (set_mutex l0 true w) (Hk tt) w' Hrun l).
      destruct (decide (l = l0)) as [->|Hne].
      * rewrite Hl0 in Hl. injection Hl as <-.
        rewrite (IH true).
        -- rewrite bool_decide_eq_true_2 by apply list_elem_of_here.
           destruct (bool_decide (l0 ∈ h)); reflexivity.
        -- simpl. apply list_lookup_insert_eq. eapply lookup_lt_Some, Hl0.
      * rewrite (IH b).
        -- f_equal. destruct (bool_decide (l ∈ h)) eqn:Hin.
           ++ apply bool_decide_eq_true_1 in Hin.
              rewrite bool_decide_eq_true_2; [reflexivity|].
              apply list_elem_of_further, Hin.
           ++ apply bool_decide_eq_false_1 in Hin.
              rewrite bool_decide_eq_false_2; [reflexivity|].
              intros [?|?]%elem_of_cons; tauto.
        -- simpl. rewrite list_lookup_insert_ne; auto.
    + destruct h as [|l1 h]; [discriminate|]. simpl in Hop.
      injection Hop as ->.
      assert (Hrel : release l0 (l0 :: h) = h)
        by (simpl; destruct (decide (l0 = l0)); congruence).
      rewrite Hrel in Hk.
      destruct (mutexes w !! l0) as [[|]|] eqn:Hl0;
        try (destruct Hrun as [[? Hr]|[? Hr]]; discriminate).
      specialize (IH tt h (set_mutex l0 false w) (Hk tt) w' Hrun l).
      destruct (decide (l = l0)) as [->|Hne].
      * rewrite (IH false).
        -- rewrite (bool_decide_eq_true_2 (l0 ∈ l0 :: h))
             by apply list_elem_of_here.
           destruct (bool_decide (l0 ∈ h)); reflexivity.
        -- simpl. apply list_lookup_insert_eq. eapply lookup_lt_Some, Hl0.
      * rewrite (IH b).
        -- f_equal. destruct (bool_decide (l ∈ h)) eqn:Hin.
           ++ apply bool_decide_eq_true_1 in Hin.
              rewrite bool_decide_eq_true_2; [reflexivity|].
              apply list_elem_of_further, Hin.
           ++ apply bool_decide_eq_false_1 in Hin.
              rewrite bool_decide_eq_false_2; [reflexivity|].
              intros [?|?]%elem_of_cons; tauto.
        -- simpl. rewrite list_lookup_insert_ne; auto.
    + eapply (IH _ h _ (Hk _) w' Hrun l b). simpl.
      rewrite lookup_app_l; [exact Hl|]. eapply lookup_lt_Some, Hl.
    + destruct (f (ext w)) as [r x].
      eapply (IH _ h _ (Hk _) w' Hrun l b). exact Hl.
Qed.

(** The world in which [Do] runs the action: the mutex of [cw] held, a
    new mutex for the inner [connWrap]. *)
Lemma run_Do (cw : connWrap) (a : Action) (w : World) :
  mutexes w !! doL cw = Some false ->
  (forall c, balanced [] (a c)) ->
  let inner := {| Conn := Conn cw; brw := brw cw;
                  doL := length (mutexes w) |} in
  let w1 := {| ext := ext w;
               mutexes := <[doL cw := true]> (mutexes w) ++ [false];
               log := log w |} in
  run (Do cw a) w =
    match run (Run a inner) w1 with
    | Returned e w2 => Returned e (set_mutex (doL cw) false w2)
    | Panicked msg w2 => Panicked msg (set_mutex (doL cw) false w2)
    | Blocked w2 => Blocked w2
    | Crashed w2 => Crashed w2
    end.
Proof.
  intros Hl Ha inner w1. unfold Do, Lock. simpl run. rewrite Hl.
  rewrite run_defer. simpl run. rewrite length_insert. fold inner. fold w1.
  assert (H1 : mutexes w1 !! doL cw = Some true).
  { simpl. rewrite lookup_app_l by (rewrite length_insert; eapply lookup_lt_Some, Hl).
    apply list_lookup_insert_eq. eapply lookup_lt_Some, Hl. }
  pose proof (balanced_run (Run a inner) [] w1 (Ha inner)) as Hb.
  destruct (run (Run a inner) w1) as [e w2|msg w2|w2|w2] eqn:Hr; try reflexivity.
  - rewrite (Hb w2 (or_introl (ex_intro _ e eq_refl)) _ _ H1). reflexivity.
  - rewrite (Hb w2 (or_intror (ex_intro _ msg eq_refl)) _ _ H1). reflexivity.
Qed.

Lemma run_Do_returns (cw : connWrap) (a : Action) (w w2 : World)
    (e : error) :
  mutexes w !! doL cw = Some false ->
  (forall c, balanced [] (a c)) ->
  run (Run a {| Conn := Conn cw; brw := brw cw; doL := length (mutexes w) |})
      {| ext := ext w; mutexes := <[doL cw := true]> (mutexes w) ++ [false];
         log := log w |} = Returned e w2 ->
  run (Do cw a) w = Returned e (set_mutex (doL cw) false w2) /\
  mutexes w2 !! doL cw = Some true /\
  mutexes (set_mutex (doL cw) false w2) !! doL cw = Some false.
Proof.
  intros Hl Ha Hr. rewrite (run_Do cw a w Hl Ha). cbv zeta. rewrite Hr.
  split; [reflexivity|].
  assert (H2 : mutexes w2 !! doL cw = Some true).
  { eapply (balanced_run _ [] _ (Ha _) w2 (or_introl (ex_intro _ e Hr))
              (doL cw) true).
    simpl. rewrite lookup_app_l
      by (rewrite length_insert; eapply lookup_lt_Some, Hl).
    apply list_lookup_insert_eq. eapply lookup_lt_Some, Hl. }
  split; [exact H2|]. simpl. apply list_lookup_insert_eq.
  eapply lookup_lt_Some, H2.
Qed.

Lemma lookup_new_mutex (m : list bool) (l : nat) :
  (<[l := true]> m ++ [false]) !! length m = Some false.
Proof.
  rewrite lookup_app_r by (rewrite length_insert; lia).
  rewrite length_insert, Nat.sub_diag. reflexivity.
Qed.

(** C2.  [Do] on a [connWrap] whose mutex is free, for an action that
    uses mutexes through [Do] only.  The action runs once, on a second
    [connWrap] that has the [Conn] and the [brw] of [cw] and a mutex of
    its own, in a world where the mutex of [cw] is held and nothing else
    has changed.  What the action returns, [Do] returns, in the world the
    action left with the mutex of [cw] free again; a panic of the action
    goes on in that same world; neither adds a library call. *)
Theorem Do_runs_action_once (cw : connWrap) (a : Action) (w : World) :
  mutexes w !! doL cw = Some false ->
  (forall c, balanced [] (a c)) ->
  let inner := {| Conn := Conn cw; brw := brw cw;
                  doL := length (mutexes w) |} in
  let w1 := {| ext := ext w;
               mutexes := <[doL cw := true]> (mutexes w) ++ [false];
               log := log w |} in
  doL inner <> doL cw /\
  mutexes w1 !! doL cw = Some true /\
  mutexes w1 !! doL inner = Some false /\
  run (Do cw a) w =
    match run (Run a inner) w1 with
    | Returned e w2 => Returned e (set_mutex (doL cw) false w2)
    | Panicked msg w2 => Panicked msg (set_mutex (doL cw) false w2)
    | Blocked w2 => Blocked w2
    | Crashed w2 => Crashed w2
    end /\
  (forall (e : error) (w2 : World),
     run (Run a inner) w1 = Returned e w2 ->
     run (Do cw a) w = Returned e (set_mutex (doL cw) false w2) /\
     mutexes w2 !! doL cw = Some true /\
     mutexes (set_mutex (doL cw) false w2) !! doL cw = Some false /\
     ext (set_mutex (doL cw) false w2) = ext w2 /\
     log (set_mutex (doL cw) false w2) = log w2).
Proof.
  intros Hl Ha inner w1.
  pose proof (lookup_lt_Some _ _ _ Hl) as Hlt.
  split; [simpl; lia|].
  split. { simpl. rewrite lookup_app_l by (rewrite length_insert; exact Hlt).
           apply list_lookup_insert_eq, Hlt. }
  split; [apply lookup_new_mutex|].
  split; [apply run_Do; assumption|].
  intros e w2 Hr.
  destruct (run_Do_returns cw a w w2 e Hl Ha Hr) as (H1 & H2 & H3).
  repeat split; assumption.
Qed.

(** C3.  An action that calls [Do] on the [Conn] it is given, to any
    depth [n], with an action [b] at the bottom that returns: the whole
    call returns, with a result [b] returned, and leaves the mutex of
    [cw] free.  The inner [connWrap] has a mutex of its own, new and
    free, which is why: the same action calling [Do] on [cw] itself waits
    for ever for the mutex the outer [Do] holds. *)
Theorem nested_Do_returns (cw : connWrap) (b : Action) (n : nat)
    (w : World) :
  mutexes w !! doL cw = Some false ->
  (forall c, balanced [] (b c)) ->
  (forall c w0, exists e w1, run (Run b c) w0 = Returned e w1) ->
  let inner := {| Conn := Conn cw; brw := brw cw;
                  doL := length (mutexes w) |} in
  let w1 := {| ext := ext w;
               mutexes := <[doL cw := true]> (mutexes w) ++ [false];
               log := log w |} in
  (exists (e : error) (w' : World),
     run (Do cw (nested n b)) w = Returned e w' /\
     mutexes w' !! doL cw = Some false /\
     exists c w0 w2, run (Run b c) w0 = Returned e w2) /\
  (doL inner <> doL cw /\ mutexes w1 !! doL inner = Some false /\
   mutexes w1 !! doL cw = Some true) /\
  run (Do cw (fun _ => Do cw b)) w = Blocked w1.
Proof.
  intros Hl Hb Hret inner w1.
  pose proof (lookup_lt_Some _ _ _ Hl) as Hlt.
  assert (H1 : mutexes w1 !! doL cw = Some true).
  { simpl. rewrite lookup_app_l by (rewrite length_insert; exact Hlt).
    apply list_lookup_insert_eq, Hlt. }
  split; [|split].
  - clear inner w1 H1 Hlt. revert cw w Hl.
    induction n as [|n IH]; intros cw w Hl.
    + destruct (Hret {| Conn := Conn cw; brw := brw cw;
                        doL := length (mutexes w) |}
                     {| ext := ext w;
                        mutexes := <[doL cw := true]> (mutexes w) ++ [false];
                        log := log w |}) as (e & w2 & Hr).
      destruct (run_Do_returns cw (nested 0 b) w w2 e Hl Hb Hr)
        as (HDo & _ & Hfree).
      exists e, (set_mutex (doL cw) false w2). eauto 8.
    + set (inner := {| Conn := Conn cw; brw := brw cw;
                       doL := length (mutexes w) |}).
      set (w1 := {| ext := ext w;
                    mutexes := <[doL cw := true]> (mutexes w) ++ [false];
                    log := log w |}).
      destruct (IH inner w1 (lookup_new_mutex _ _))
        as (e & w2 & Hr & _ & Hb').
      destruct (run_Do_returns cw (nested (S n) b) w w2 e Hl
                  (balanced_nested (S n) b Hb) Hr) as (HDo & _ & Hfree).
      exists e, (set_mutex (doL cw) false w2). auto.
  - split; [simpl; lia|]. split; [apply lookup_new_mutex|exact H1].
  - rewrite run_Do; [|exact Hl|intros c; apply balanced_Do, Hb].
    fold inner. fold w1. unfold Run, Do, Lock. cbn [bind run exec].
    rewrite H1. reflexivity.
Qed.

(** What the code does where C5 says otherwise.  After [Close] on a
    [connWrap] over a stream [fd], [Do] with an action that returns nil
    returns nil: no error, and the one library call is the [Close]. *)
Theorem Do_after_Close_returns_nil (cw : connWrap) (fd : nat) (w : World) :
  Conn cw = extConn fd ->
  mutexes w !! doL cw = Some false ->
  exists w' : World,
    run (Close cw ;;; Do cw action_ok) w = Returned ErrNil w' /\
    log w' = log w ++ [EvClose fd].
Proof.
  intros Hc Hl. rewrite run_bind. unfold Close. rewrite Hc.
  cbn [Conn_Close]. rewrite run_call.
  set (wc := after w [EvClose fd] (ext_Close fd (ext w)).2).
  assert (Hlc : mutexes wc !! doL cw = Some false) by exact Hl.
  destruct (run_Do_returns cw action_ok wc _ ErrNil Hlc
              (fun _ => eq_refl) eq_refl) as (HDo & _).
  rewrite HDo. eexists. split; reflexivity.
Qed.

End Locking.

(** ** Goroutines that call Do on one connection *)

Section Exclusion.
Context {P : Platform}.

Lemma set_mutex_held (w : World) (l l' : nat) :
  mutexes w !! l' = Some true -> (l < length (mutexes w))%nat ->
  mutexes (set_mutex l true w) !! l' = Some true.
Proof.
  intros Hl' Hlt. simpl. destruct (decide (l = l')) as [->|Hne].
  - apply list_lookup_insert_eq, Hlt.
  - rewrite list_lookup_insert_ne; auto.
Qed.

Lemma lock_inv_step (c c' : list goroutine * World) :
  lock_inv c -> sched_step c c' -> lock_inv c'.
Proof.
  intros (I1 & I2 & I3) Hs.
  destruct Hs as [gs w i g g' w' Hi Hstep]. simpl in I1, I2, I3.
  unfold step_goroutine in Hstep.
  destruct (code g) as [a|msg|R op k] eqn:Hcode; try discriminate.
  destruct (exec op w) as [r w1| |] eqn:Hex; try discriminate.
  injection Hstep as <- <-.
  destruct (I1 i g Hi) as [Hbal Hnd]. rewrite Hcode in Hbal.
  simpl in Hbal. destruct Hbal as [Hperm Hk].
  pose proof (lookup_lt_Some _ _ _ Hi) as Hlti.
  set (g' := {| code := k r; held := track op (held g) |}).
  assert (Hnew : forall j gj, <[i := g']> gs !! j = Some gj ->
            (j = i /\ gj = g') \/ (j <> i /\ gs !! j = Some gj)).
  { intros j gj Hj. apply list_lookup_insert_Some in Hj.
    destruct Hj as [(-> & <- & _)|[Hne Hj]]; [left|right]; auto. }
  assert (Hsub : forall l, l ∈ track op (held g) ->
            l ∈ held g \/ (exists l0, l = l0 /\ mutexes w !! l0 = Some false)).
  { intros l Hl. destruct op as [l0|l0| |R ev f]; simpl in Hl; auto.
    - apply elem_of_cons in Hl. destruct Hl as [->|Hl]; [right|left; exact Hl].
      exists l0. split; [reflexivity|]. simpl in Hex.
      destruct (mutexes w !! l0) as [[|]|]; congruence.
    - simpl in Hperm. destruct (held g) as [|l1 h]; [discriminate|].
      injection Hperm as ->. simpl in Hl.
      destruct (decide (l0 = l0)); [|congruence].
      left. apply list_elem_of_further, Hl. }
  assert (Hkeep : forall j gj l, j <> i -> gs !! j = Some gj -> l ∈ held gj ->
            mutexes w1 !! l = Some true).
  { intros j gj l Hne Hj Hl. pose proof (I2 j gj l Hj Hl) as Ht.
    destruct op as [l0|l0| |R ev f]; simpl in Hex.
    - destruct (mutexes w !! l0) as [[|]|] eqn:Hl0; try discriminate.
      injection Hex as _ <-. apply set_mutex_held; [exact Ht|].
      eapply lookup_lt_Some, Hl0.
    - destruct (mutexes w !! l0) as [[|]|] eqn:Hl0; try discriminate.
      injection Hex as _ <-. simpl.
      rewrite list_lookup_insert_ne; [exact Ht|].
      intros ->. apply Hne. symmetry. apply (I3 i j g gj l Hi Hj); [|exact Hl].
      simpl in Hperm. destruct (held g) as [|l1 h]; [discriminate|].
      injection Hperm as ->. apply list_elem_of_here.
    - injection Hex as _ <-. simpl.
      rewrite lookup_app_l; [exact Ht|]. eapply lookup_lt_Some, Ht.
    - destruct (f (ext w)) as [r0 x]. injection Hex as _ <-. exact Ht. }
  assert (Hown : forall l, l ∈ track op (held g) ->
            mutexes w1 !! l = Some true).
  { intros l Hl. destruct op as [l0|l0| |R ev f]; simpl in Hex, Hl.
    - destruct (mutexes w !! l0) as [[|]|] eqn:Hl0; try discriminate.
      injection Hex as _ <-.
      pose proof (lookup_lt_Some _ _ _ Hl0) as Hlt0.
      apply elem_of_cons in Hl. destruct Hl as [->|Hl].
      + simpl. apply list_lookup_insert_eq, Hlt0.
      + apply set_mutex_held; [|exact Hlt0]. apply (I2 i g l Hi Hl).
    - destruct (mutexes w !! l0) as [[|]|] eqn:Hl0; try discriminate.
      injection Hex as _ <-. simpl in Hperm.
      destruct (held g) as [|l1 h] eqn:Hh; [discriminate|].
      injection Hperm as ->. simpl in Hl.
      destruct (decide (l0 = l0)); [|congruence].
      apply NoDup_cons in Hnd. destruct Hnd as [Hnin _]. simpl.
      rewrite list_lookup_insert_ne; [|intros ->; tauto].
      apply (I2 i g l Hi). rewrite Hh. apply list_elem_of_further, Hl.
    - injection Hex as _ <-. simpl.
      pose proof (I2 i g l Hi Hl) as Ht.
      rewrite lookup_app_l; [exact Ht|]. eapply lookup_lt_Some, Ht.
    - destruct (f (ext w)) as [r0 x]. injection Hex as _ <-.
      apply (I2 i g l Hi Hl). }
  assert (Hnd' : NoDup (track op (held g))).
  { destruct op as [l0|l0| |R ev f]; simpl; auto.
    - apply NoDup_cons. split; [|exact Hnd]. intros Hin.
      pose proof (I2 i g l0 Hi Hin) as Ht. simpl in Hex. rewrite Ht in Hex.
      discriminate.
    - simpl in Hperm. destruct (held g) as [|l1 h]; [discriminate|].
      injection Hperm as ->. simpl.
      destruct (decide (l0 = l0)); [|congruence].
      apply NoDup_cons in Hnd. tauto. }
  split; [|split]; simpl.
  - intros j gj Hj. destruct (Hnew j gj Hj) as [[-> ->]|[Hne Hj']].
    + split; [apply Hk|exact Hnd'].
    + apply (I1 j gj Hj').
  - intros j gj l Hj Hl. destruct (Hnew j gj Hj) as [[-> ->]|[Hne Hj']].
    + apply Hown, Hl.
    + apply (Hkeep j gj l Hne Hj' Hl).
  - intros j1 j2 g1 g2 l Hj1 Hj2 Hl1 Hl2.
    destruct (Hnew j1 g1 Hj1) as [[-> ->]|[Hne1 Hj1']];
      destruct (Hnew j2 g2 Hj2) as [[-> ->]|[Hne2 Hj2']]; auto.
    + destruct (Hsub l Hl1) as [Hin|(l0 & -> & Hfree)].
      * apply (I3 i j2 g g2 l Hi Hj2' Hin Hl2).
      * rewrite (I2 j2 g2 l0 Hj2' Hl2) in Hfree. discriminate.
    + destruct (Hsub l Hl2) as [Hin|(l0 & -> & Hfree)].
      * apply (I3 j1 i g1 g l Hj1' Hi Hl1 Hin).
      * rewrite (I2 j1 g1 l0 Hj1' Hl1) in Hfree. discriminate.
    + apply (I3 j1 j2 g1 g2 l Hj1' Hj2' Hl1 Hl2).
Qed.

Lemma lock_inv_init (cw : connWrap) (acts : list Action) (w : World) :
  Forall (fun a : Action => forall c, balanced [] (a c)) acts ->
  lock_inv (go_Do cw <$> acts, w).
Proof.
  intros Hacts.
  assert (Hg : forall i g, (go_Do cw <$> acts) !! i = Some g ->
            exists a, g = go_Do cw a /\ forall c, balanced [] (a c)).
  { intros i g Hi. apply list_lookup_fmap_Some in Hi.
    destruct Hi as (a & -> & Ha). exists a. split; [reflexivity|].
    rewrite Forall_forall in Hacts. apply Hacts.
    eapply list_elem_of_lookup_2, Ha. }
  split; [|split]; simpl.
  - intros i g Hi. destruct (Hg i g Hi) as (a & -> & Ha). simpl.
    split; [apply (balanced_Do cw a Ha)|constructor].
  - intros i g l Hi Hl. destruct (Hg i g Hi) as (a & -> & _).
    simpl in Hl. apply elem_of_nil in Hl. contradiction.
  - intros i j gi gj l Hi _ Hl. destruct (Hg i gi Hi) as (a & -> & _).
    simpl in Hl. apply elem_of_nil in Hl. contradiction.
Qed.

Lemma lock_inv_reachable (c0 c : list goroutine * World) :
  lock_inv c0 -> reachable c0 c -> lock_inv c.
Proof.
  intros H0 Hr. induction Hr as [|c1 c2 Hr IH Hs]; [exact H0|].
  eapply lock_inv_step; [exact IH|exact Hs].
Qed.

(** At most one element of a list has a property that no two positions
    share. *)
Lemma at_most_one {A : Type} (Q : A -> Prop) `{forall x, Decision (Q x)}
    (l : list A) :
  (forall i j x y, l !! i = Some x -> l !! j = Some y -> Q x -> Q y -> i = j) ->
  (length (filter Q l) <= 1)%nat.
Proof.
  induction l as [|a l IH]; intros Huniq; [simpl; lia|].
  assert (IH' : (length (filter Q l) <= 1)%nat).
  { apply IH. intros i j x y Hi Hj Hx Hy.
    assert (S i = S j) by (apply (Huniq (S i) (S j) x y); assumption).
    lia. }
  destruct (decide (Q a)) as [Ha|Ha].
  - rewrite filter_cons_True by exact Ha.
    destruct (filter Q l) as [|b t] eqn:Hf; [simpl; lia|].
    assert (Hb : b ∈ filter Q l) by (rewrite Hf; apply list_elem_of_here).
    apply list_elem_of_filter in Hb. destruct Hb as [Hqb Hbl].
    apply list_elem_of_lookup_1 in Hbl. destruct Hbl as [j Hj].
    assert (O = S j)
      by (apply (Huniq O (S j) a b); [reflexivity|exact Hj|exact Ha|exact Hqb]).
    discriminate.
  - rewrite filter_cons_False by exact Ha. exact IH'.
Qed.

Lemma reachable_sched (c0 c : list goroutine * World) (i : nat) :
  reachable c0 c -> reachable c0 (sched i c).
Proof.
  intros Hr. unfold sched. destruct c as [gs w]. simpl.
  destruct (gs !! i) as [g|] eqn:Hi; [|exact Hr].
  destruct (step_goroutine g w) as [[g' w']|] eqn:Hs; [|exact Hr].
  eapply reach_step; [exact Hr|]. econstructor; eassumption.
Qed.

Lemma reachable_schedule (order : list nat) (c0 c : list goroutine * World) :
  reachable c0 c -> reachable c0 (schedule order c).
Proof.
  revert c. induction order as [|i order IH]; intros c Hr; [exact Hr|].
  simpl. apply IH, reachable_sched, Hr.
Qed.

(** What the mutex alone gives.  Goroutines that each call [Do] on the
    same [connWrap], with actions that use mutexes through [Do] only,
    scheduled in any order, one atomic operation at a time, from any
    world: in every configuration they reach, at most one of them is
    between the [Lock] and the [Unlock] of its [Do], two of them that are
    there are the same goroutine, and the mutex is held whenever one is
    there.  That the action runs between the two is shown further down,
    with a counter around the action. *)
Theorem Do_mutual_exclusion (cw : connWrap) (acts : list Action)
    (w : World) (c : list goroutine * World) :
  Forall (fun a : Action => forall x, balanced [] (a x)) acts ->
  reachable (go_Do cw <$> acts, w) c ->
  (inside cw c.1 <= 1)%nat /\
  (forall i j gi gj, c.1 !! i = Some gi -> c.1 !! j = Some gj ->
     doL cw ∈ held gi -> doL cw ∈ held gj -> i = j) /\
  (forall i g, c.1 !! i = Some g -> doL cw ∈ held g ->
     mutexes c.2 !! doL cw = Some true).
Proof.
  intros Hacts Hr.
  pose proof (lock_inv_reachable _ _ (lock_inv_init cw acts w Hacts) Hr)
    as (I1 & I2 & I3).
  assert (Hu : forall i j gi gj, c.1 !! i = Some gi -> c.1 !! j = Some gj ->
            doL cw ∈ held gi -> doL cw ∈ held gj -> i = j).
  { intros i j gi gj Hi Hj Hgi Hgj. apply (I3 i j gi gj (doL cw)); assumption. }
  split; [|split].
  - unfold inside. apply at_most_one. exact Hu.
  - exact Hu.
  - intros i g Hi Hg. apply (I2 i g (doL cw) Hi Hg).
Qed.

End Exclusion.

(** ** More on the wrappers *)

Section Wrappers.
Context {P : Platform}.

Lemma base_cases (c : net_Conn) :
  base c = nilConn \/ exists fd, base c = extConn fd.
Proof. induction c; simpl; eauto. Qed.

Lemma SetDeadline_base (c : net_Conn) (t : Time) :
  Conn_SetDeadline c t = Conn_SetDeadline (base c) t.
Proof. induction c; simpl; auto. Qed.

(** X1.  The five methods that neither wrapper declares reach the stream
    at the bottom of any stack of [timeoutConn] and [connLimited]: each is
    the one library call on that stream, with its result.  So the value
    [NetConn] returns still sets the deadlines of the real stream. *)
Theorem wrappers_forward (c : net_Conn) (fd : nat) (t : Time) (w : World) :
  base c = extConn fd ->
  run (Conn_SetDeadline c t) w =
    Returned (ext_SetDeadline fd t (ext w)).1
      (after w [EvSetDeadline fd t] (ext_SetDeadline fd t (ext w)).2) /\
  run (Conn_SetReadDeadline c t) w =
    Returned (ext_SetReadDeadline fd t (ext w)).1
      (after w [EvSetReadDeadline fd t] (ext_SetReadDeadline fd t (ext w)).2) /\
  run (Conn_SetWriteDeadline c t) w =
    Returned (ext_SetWriteDeadline fd t (ext w)).1
      (after w [EvSetWriteDeadline fd t]
         (ext_SetWriteDeadline fd t (ext w)).2) /\
  run (Conn_LocalAddr c) w =
    Returned (ext_LocalAddr fd (ext w)).1
      (after w [EvLocalAddr fd] (ext_LocalAddr fd (ext w)).2) /\
  run (Conn_RemoteAddr c) w =
    Returned (ext_RemoteAddr fd (ext w)).1
      (after w [EvRemoteAddr fd] (ext_RemoteAddr fd (ext w)).2).
Proof.
  induction c as [|fd'|c IH d|c IH]; simpl; intros Hb; try discriminate.
  - injection Hb as ->. repeat split; apply run_call.
  - apply IH, Hb.
  - apply IH, Hb.
Qed.

Lemma run_Conn_Close_wrappers (c : net_Conn) (w : World) :
  run (Conn_Close c) w =
    if limited c then
      Returned (errorString
        "Close not allowed to be called on net.Conn returned from radix") w
    else
      match base c with
      | extConn fd =>
          Returned (ext_Close fd (ext w)).1
            (after w [EvClose fd] (ext_Close fd (ext w)).2)
      | _ => Panicked nil_deref w
      end.
Proof.
  induction c as [|fd|c IH d|c IH]; simpl; try reflexivity.
  - apply run_call.
  - exact IH.
Qed.

(** X2.  [Close] through any stack of wrappers.  With a [connLimited]
    anywhere in the stack it returns the error of [connLimited.Close] and
    nothing is called; with none it is the one [Close] of the stream at
    the bottom, for [timeoutConn] has no [Close] of its own; on nil it
    panics. *)
Theorem Close_through_wrappers (c : net_Conn) (w : World) :
  run (Conn_Close c) w =
    if limited c then
      Returned (errorString
        "Close not allowed to be called on net.Conn returned from radix") w
    else
      match base c with
      | extConn fd =>
          Returned (ext_Close fd (ext w)).1
            (after w [EvClose fd] (ext_Close fd (ext w)).2)
      | _ => Panicked nil_deref w
      end.
Proof. apply run_Conn_Close_wrappers. Qed.

(** X3.  A [connWrap] over a restricted view, as [NewConn(c.NetConn())]
    makes: [Close] on it returns an error and closes nothing, so [Encode]
    and [Decode] return a [net.Error] of the codec in the world the codec
    left: the stream stays open. *)
Theorem restricted_conn_not_closed (cw : connWrap) (m : Marshaler)
    (u : Unmarshaler) (w w1 : World) (err : error) :
  limited (Conn cw) = true ->
  run (Close cw) w =
    Returned (errorString
      "Close not allowed to be called on net.Conn returned from radix") w /\
  (run (MarshalRESP m (brw cw)) w = Returned err w1 -> is_nil err = false ->
   run (Encode cw m) w = Returned err w1) /\
  (run (UnmarshalRESP u (Reader (brw cw))) w = Returned err w1 ->
   run (Decode cw u) w = Returned err w1).
Proof.
  intros Hlim.
  assert (HClose : forall w', run (Close cw) w' =
    Returned (errorString
      "Close not allowed to be called on net.Conn returned from radix") w').
  { intros w'. unfold Close. rewrite run_Conn_Close_wrappers, Hlim.
    reflexivity. }
  split; [apply HClose|]. split.
  - intros Hm Hnil. rewrite (run_Encode_error cw m w w1 err Hm Hnil).
    destruct (is_net_Error err); [|reflexivity].
    rewrite run_bind, HClose. reflexivity.
  - intros Hu. unfold Decode. rewrite run_bind, Hu.
    destruct (is_net_Error err); [|reflexivity].
    rewrite !run_bind, HClose. reflexivity.
Qed.

Lemma calls_app (f : Event -> bool) (t1 t2 : list Event) :
  calls f (t1 ++ t2) = (calls f t1 + calls f t2)%nat.
Proof. unfold calls. rewrite List.filter_app, length_app. reflexivity. Qed.

(** What [setDeadline] adds to the trace: nothing, or a reading of the
    clock and at most one [SetDeadline]. *)
Lemma setDeadline_trace (c : net_Conn) (d : Z) (w : World) :
  ends (run (setDeadline c d) w) /\
  exists evs : list Event,
    log (final (run (setDeadline c d) w)) = log w ++ evs /\
    mutexes (final (run (setDeadline c d) w)) = mutexes w /\
    calls is_EvRead evs = 0%nat /\ calls is_EvWrite evs = 0%nat /\
    calls is_EvClose evs = 0%nat.
Proof.
  unfold setDeadline. destruct (0 <? d).
  - rewrite run_bind, run_call, SetDeadline_base.
    destruct (base_cases c) as [->|[fd ->]]; simpl.
    + split; [exact I|]. exists [EvNow]. auto.
    + destruct (ext_SetDeadline fd _ _) as [e x]. simpl.
      split; [exact I|]. eexists. rewrite <- app_assoc.
      split; [reflexivity|]. auto.
  - simpl. split; [exact I|]. exists []. rewrite app_nil_r. auto.
Qed.

(** X4.  [Read] through any stack of wrappers calls the [Read] of a
    stream at most once, and never a [Write] or a [Close]; [Write] calls
    the [Write] of a stream at most once, and never a [Read] or a
    [Close].  Neither waits for a mutex or changes one. *)
Theorem Read_Write_at_most_once (c : net_Conn) (b : list Byte.byte)
    (w : World) :
  (ends (run (Conn_Read c b) w) /\
   mutexes (final (run (Conn_Read c b) w)) = mutexes w /\
   exists evs : list Event,
     log (final (run (Conn_Read c b) w)) = log w ++ evs /\
     (calls is_EvRead evs <= 1)%nat /\
     calls is_EvWrite evs = 0%nat /\ calls is_EvClose evs = 0%nat) /\
  (ends (run (Conn_Write c b) w) /\
   mutexes (final (run (Conn_Write c b) w)) = mutexes w /\
   exists evs : list Event,
     log (final (run (Conn_Write c b) w)) = log w ++ evs /\
     (calls is_EvWrite evs <= 1)%nat /\
     calls is_EvRead evs = 0%nat /\ calls is_EvClose evs = 0%nat).
Proof.
  revert w. induction c as [|fd|c IH d|c IH]; intros w.
  - simpl. split; (split; [exact I|]; split; [reflexivity|]);
      exists []; rewrite app_nil_r; auto.
  - cbn [Conn_Read Conn_Write]. rewrite !run_call. simpl.
    split; (split; [exact I|]; split; [reflexivity|]);
      eexists; (split; [reflexivity|]); auto.
  - cbn [Conn_Read Conn_Write]. rewrite !run_bind.
    destruct (setDeadline_trace c d w)
      as (He & evs & Hlog & Hmx & H1 & H2 & H3).
    destruct (run (setDeadline c d) w) as [[] w1|msg w1|w1|w1];
      simpl in He, Hlog, Hmx; try contradiction.
    + destruct (IH w1) as [(Her & Hmr & er & Hlr & Hr1 & Hr2 & Hr3)
                            (Hew & Hmw & ew & Hlw & Hw1 & Hw2 & Hw3)].
      split.
      * split; [exact Her|]. split; [congruence|].
        exists (evs ++ er). rewrite Hlr, Hlog, <- app_assoc, !calls_app.
        split; [reflexivity|]. lia.
      * split; [exact Hew|]. split; [congruence|].
        exists (evs ++ ew). rewrite Hlw, Hlog, <- app_assoc, !calls_app.
        split; [reflexivity|]. lia.
    + simpl. split; (split; [exact I|]; split; [exact Hmx|]);
        exists evs; (split; [exact Hlog|]); lia.
  - simpl. split; (split; [exact I|]; split; [reflexivity|]);
      exists []; rewrite app_nil_r; auto.
Qed.

(** X5.  A [Conn] that [DialTimeout] made with a timeout that is zero or
    negative sets no deadline: a [Read] or a [Write] on it is the [Read]
    or the [Write] of the dialled stream and nothing else. *)
Theorem DialTimeout_nonpositive (network addr : string) (timeout : Z)
    (w : World) (cw : connWrap) (w' : World) :
  timeout <= 0 ->
  run (DialTimeout network addr timeout) w = Returned (Some cw, ErrNil) w' ->
  forall (b : list Byte.byte) (w2 : World),
    let c := (net_DialTimeout network addr timeout (ext w)).1.1 in
    run (Conn_Read (Conn cw) b) w2 = run (Conn_Read c b) w2 /\
    run (Conn_Write (Conn cw) b) w2 = run (Conn_Write c b) w2.
Proof.
  intros Hd Hrun b w2 c.
  destruct (is_nil (net_DialTimeout network addr timeout (ext w)).1.2)
    eqn:Hnil.
  - destruct (run_DialTimeout_ok network addr timeout w Hnil)
      as (cw0 & w0 & _ & Hrun0 & HConn & _).
    rewrite Hrun0 in Hrun. injection Hrun as -> ->. rewrite HConn.
    cbn [Conn_Read Conn_Write].
    rewrite !run_bind, (run_setDeadline_nonpos _ timeout w2 Hd).
    split; reflexivity.
  - rewrite (run_DialTimeout_error network addr timeout w Hnil) in Hrun.
    discriminate.
Qed.

End Wrappers.

(** ** More on the lock *)

Section LockFree.
Context {P : Platform}.

Lemma lockfree_bind {A B : Type} (p : Prog A) (f : A -> Prog B) :
  lockfree p -> (forall a, lockfree (f a)) -> lockfree (bind p f).
Proof.
  induction p as [a|msg|R op k IH]; intros Hp Hf; simpl in *; auto.
  destruct Hp as [Hop Hk]. split; auto.
Qed.

Lemma lockfree_call {R : Type} (ev : Event) (f : W -> R * W) :
  lockfree (call ev f).
Proof. simpl. auto. Qed.

Lemma lockfree_Conn_Close (c : net_Conn) : lockfree (Conn_Close c).
Proof. induction c; simpl; auto. Qed.

Lemma lockfree_closeOnNetError (cw : connWrap) (err : error) :
  lockfree (defer (closeOnNetError cw err) (Ret err)).
Proof.
  simpl. apply lockfree_bind; [|intros; exact I]. unfold closeOnNetError.
  destruct (is_net_Error err); [|exact I].
  apply lockfree_bind; [apply lockfree_Conn_Close|intros; exact I].
Qed.

Lemma lockfree_Encode (cw : connWrap) (m : Marshaler) :
  (forall b, lockfree (m b)) -> lockfree (Encode cw m).
Proof.
  intros Hm. unfold Encode. apply lockfree_bind; [apply Hm|].
  intros err. destruct (negb (is_nil err)).
  - apply lockfree_closeOnNetError.
  - apply lockfree_bind; [apply lockfree_call|].
    intros e. apply lockfree_closeOnNetError.
Qed.

Lemma lockfree_Decode (cw : connWrap) (u : Unmarshaler) :
  (forall r, lockfree (u r)) -> lockfree (Decode cw u).
Proof.
  intros Hu. unfold Decode. apply lockfree_bind; [apply Hu|].
  intros err. apply lockfree_bind; [|intros; exact I].
  destruct (is_net_Error err); [|exact I].
  apply lockfree_bind; [apply lockfree_Conn_Close|intros; exact I].
Qed.

Lemma lockfree_balanced {A : Type} (p : Prog A) :
  lockfree p -> balanced [] p.
Proof.
  induction p as [a|msg|R op k IH]; simpl; auto.
  intros [Hop Hk]. destruct op; simpl in Hop; try contradiction.
  simpl. auto.
Qed.

(** A program with no mutex operation ends, and runs the same whatever
    the mutexes are. *)
Lemma run_lockfree {A : Type} (p : Prog A) (m : list bool) (w : World) :
  lockfree p ->
  ends (run p w) /\
  mutexes (final (run p w)) = mutexes w /\
  run p (set_mutexes m w) = outcome_map (set_mutexes m) (run p w).
Proof.
  revert w. induction p as [a|msg|R op k IH]; intros w Hp; simpl in *; auto.
  destruct Hp as [Hop Hk]. destruct op; simpl in Hop; try contradiction.
  simpl. destruct (f (ext w)) as [r x].
  destruct (IH r {| ext := x; mutexes := mutexes w; log := log w ++ [ev] |}
              (Hk r)) as (He & Hm & Hi).
  auto.
Qed.

(** X6.  [Encode] and [Decode] take no lock.  With codecs that take none,
    they end (by return or by panic) from every world, also one in which
    the mutex of the connection is held by a [Do] in progress, change no
    mutex, and return the same with the same calls whatever the mutexes
    are: nothing keeps them apart from a running action. *)
Theorem codec_takes_no_lock (cw : connWrap) (m : Marshaler)
    (u : Unmarshaler) (held_or_not : list bool) (w : World) :
  (forall b, lockfree (m b)) ->
  (forall r, lockfree (u r)) ->
  (ends (run (Encode cw m) w) /\
   mutexes (final (run (Encode cw m) w)) = mutexes w /\
   run (Encode cw m) (set_mutexes held_or_not w) =
     outcome_map (set_mutexes held_or_not) (run (Encode cw m) w)) /\
  (ends (run (Decode cw u) w) /\
   mutexes (final (run (Decode cw u) w)) = mutexes w /\
   run (Decode cw u) (set_mutexes held_or_not w) =
     outcome_map (set_mutexes held_or_not) (run (Decode cw u) w)).
Proof.
  intros Hm Hu. split; apply run_lockfree.
  - apply lockfree_Encode, Hm.
  - apply lockfree_Decode, Hu.
Qed.

Lemma unlock_new_mutex (m : list bool) (l : nat) :
  m !! l = Some false ->
  <[l := false]> (<[l := true]> m ++ [false]) = m ++ [false].
Proof.
  intros Hl. pose proof (lookup_lt_Some _ _ _ Hl) as Hlt.
  rewrite insert_app_l by (rewrite length_insert; exact Hlt).
  rewrite list_insert_insert_eq, list_insert_id by exact Hl. reflexivity.
Qed.

(** X7.  For an action that takes no lock, [Do] on a free connection
    adds nothing to what the action does on the inner [connWrap]: same
    result or panic, same state outside, same calls; only one more mutex
    exists, free.  And [Encode], [Decode], [Close] and [NetConn] on the
    inner [connWrap] are those on the outer one, so [Do] with an action
    that encodes has the calls and the result of [Encode]. *)
Theorem Do_adds_nothing (cw : connWrap) (a : Action) (w : World) :
  mutexes w !! doL cw = Some false ->
  (forall c, lockfree (a c)) ->
  let inner := {| Conn := Conn cw; brw := brw cw;
                  doL := length (mutexes w) |} in
  run (Do cw a) w =
    outcome_map (set_mutexes (mutexes w ++ [false])) (run (Run a inner) w) /\
  (forall (m : Marshaler) (u : Unmarshaler),
     Encode inner m = Encode cw m /\ Decode inner u = Decode cw u /\
     Close inner = Close cw /\ NetConn inner = NetConn cw) /\
  (forall m : Marshaler,
     (forall b, lockfree (m b)) ->
     run (Do cw (fun c => Encode c m)) w =
       outcome_map (set_mutexes (mutexes w ++ [false]))
                   (run (Encode cw m) w)).
Proof.
  intros Hl Ha inner.
  assert (Hgen : forall a' : Action, (forall c, lockfree (a' c)) ->
    run (Do cw a') w =
    outcome_map (set_mutexes (mutexes w ++ [false])) (run (Run a' inner) w)).
  { intros a' Ha'.
    rewrite (run_Do cw a' w Hl (fun c => lockfree_balanced _ (Ha' c))).
    cbv zeta. fold inner.
    destruct (run_lockfree (Run a' inner)
                (<[doL cw := true]> (mutexes w) ++ [false]) w (Ha' inner))
      as (He & _ & Hi).
    change {| ext := ext w;
              mutexes := <[doL cw := true]> (mutexes w) ++ [false];
              log := log w |}
      with (set_mutexes (<[doL cw := true]> (mutexes w) ++ [false]) w).
    rewrite Hi.
    destruct (run (Run a' inner) w) as [e w2|msg w2|w2|w2];
      simpl in He; try contradiction; simpl; unfold set_mutex, set_mutexes;
      simpl; rewrite (unlock_new_mutex _ _ Hl); reflexivity. }
  split; [apply Hgen, Ha|]. split.
  - intros m u. repeat split.
  - intros m Hm. apply (Hgen (fun c => Encode c m)).
    intros c. apply lockfree_Encode, Hm.
Qed.

(** X8.  [Do] gives the lock back.  However a [Do] ends, by return of
    the action or by its panic, the mutex of the connection was free
    before, is free after, and every mutex that existed before is in the
    state it was in. *)
Theorem Do_gives_lock_back (cw : connWrap) (a : Action) (w : World) :
  (forall c, balanced [] (a c)) ->
  ends (run (Do cw a) w) ->
  mutexes w !! doL cw = Some false /\
  mutexes (final (run (Do cw a) w)) !! doL cw = Some false /\
  (forall l b, mutexes w !! l = Some b ->
     mutexes (final (run (Do cw a) w)) !! l = Some b).
Proof.
  intros Ha He.
  assert (Hfree : mutexes w !! doL cw = Some false).
  { unfold Do, Lock in He. simpl run in He.
    destruct (mutexes w !! doL cw) as [[|]|]; simpl in He;
      try contradiction. reflexivity. }
  assert (Hall : forall l b, mutexes w !! l = Some b ->
            mutexes (final (run (Do cw a) w)) !! l = Some b).
  { intros l b Hl.
    pose proof (balanced_run (Do cw a) [] w (balanced_Do cw a Ha)) as Hb.
    destruct (run (Do cw a) w) as [e w'|msg w'|w'|w'] eqn:Hr;
      simpl in He; try contradiction; simpl.
    - apply (Hb w' (or_introl (ex_intro _ e eq_refl)) l b Hl).
    - apply (Hb w' (or_intror (ex_intro _ msg eq_refl)) l b Hl). }
  split; [exact Hfree|]. split; [apply Hall, Hfree|exact Hall].
Qed.

(** X9.  [NewConn] calls nothing but the making of the buffered reader
    and writer over the stream it is given, leaves every mutex as it was
    and gives the [connWrap] a mutex that did not exist, free: a [Do] on
    the new connection runs its action at once. *)
Theorem NewConn_fresh (c : net_Conn) (a : Action) (w : World) :
  (forall x, balanced [] (a x)) ->
  (forall x w0, exists e w1, run (Run a x) w0 = Returned e w1) ->
  exists (cw : connWrap) (w0 : World),
    run (NewConn c) w = Returned cw w0 /\
    Conn cw = c /\
    mutexes w !! doL cw = None /\
    mutexes w0 !! doL cw = Some false /\
    (forall l b, mutexes w !! l = Some b -> mutexes w0 !! l = Some b) /\
    log w0 = log w ++ [EvNewReader c; EvNewWriter c] /\
    exists (e : error) (w' : World), run (Do cw a) w0 = Returned e w'.
Proof.
  intros Ha Hret.
  set (r := bufio_NewReader c (ext w)).
  set (wr := bufio_NewWriter c r.2).
  set (cw := {| Conn := c; brw := {| Reader := r.1; Writer := wr.1 |};
                doL := length (mutexes w) |}).
  set (w0 := {| ext := wr.2; mutexes := mutexes w ++ [false];
                log := log w ++ [EvNewReader c; EvNewWriter c] |}).
  exists cw, w0. split; [apply run_NewConn|].
  split; [reflexivity|].
  split; [apply lookup_ge_None_2; simpl; lia|].
  assert (Hnew : mutexes w0 !! doL cw = Some false).
  { simpl. rewrite lookup_app_r by lia. rewrite Nat.sub_diag. reflexivity. }
  split; [exact Hnew|].
  split. { intros l b Hl. simpl. rewrite lookup_app_l; [exact Hl|].
           eapply lookup_lt_Some, Hl. }
  split; [reflexivity|].
  destruct (Hret {| Conn := Conn cw; brw := brw cw;
                    doL := length (mutexes w0) |}
                 {| ext := ext w0;
                    mutexes := <[doL cw := true]> (mutexes w0) ++ [false];
                    log := log w0 |}) as (e & w1 & Hr).
  destruct (run_Do_returns cw a w0 w1 e Hnew Ha Hr) as (HDo & _).
  exists e, (set_mutex (doL cw) false w1). exact HDo.
Qed.

End LockFree.

(** ** Goroutines give the lock back *)

Section Ownership.
Context {P : Platform}.

Lemma own_inv_step (m0 : list bool) (c c' : list goroutine * World) :
  lock_inv c -> own_inv m0 c -> sched_step c c' -> own_inv m0 c'.
Proof.
  intros (I1 & I2 & I3) Hown Hs.
  destruct Hs as [gs w i g g' w' Hi Hstep]. simpl in I1, I2, I3.
  unfold step_goroutine in Hstep.
  destruct (code g) as [a|msg|R op k] eqn:Hcode; try discriminate.
  destruct (exec op w) as [r w1| |] eqn:Hex; try discriminate.
  injection Hstep as <- <-.
  destruct (I1 i g Hi) as [Hbal Hnd]. rewrite Hcode in Hbal.
  simpl in Hbal. destruct Hbal as [Hperm _].
  pose proof (lookup_lt_Some _ _ _ Hi) as Hlti.
  set (g' := {| code := k r; held := track op (held g) |}).
  assert (Hat : <[i := g']> gs !! i = Some g')
    by (apply list_lookup_insert_eq, Hlti).
  assert (Hnew : forall j gj, <[i := g']> gs !! j = Some gj ->
            (j = i /\ gj = g') \/ (j <> i /\ gs !! j = Some gj)).
  { intros j gj Hj. apply list_lookup_insert_Some in Hj.
    destruct Hj as [(-> & <- & _)|[Hne Hj]]; [left|right]; auto. }
  assert (Hother : forall j gj, j <> i -> gs !! j = Some gj ->
            <[i := g']> gs !! j = Some gj).
  { intros j gj Hne Hj. rewrite list_lookup_insert_ne; auto. }
  intros l b0 Hl0. specialize (Hown l b0 Hl0). simpl in Hown. simpl.
  destruct op as [l0|l0| |R ev f]; simpl in Hex.
  - (* Lock *)
    destruct (mutexes w !! l0) as [[|]|] eqn:Hfree; try discriminate.
    injection Hex as _ <-. simpl mutexes.
    pose proof (lookup_lt_Some _ _ _ Hfree) as Hlt0.
    destruct (decide (l = l0)) as [->|Hne].
    + right. destruct Hown as [[Hst _]|(_ & Hst & _)];
        rewrite Hfree in Hst; [|discriminate].
      injection Hst as <-. split; [reflexivity|].
      split; [apply list_lookup_insert_eq, Hlt0|].
      exists i, g'. split; [exact Hat|]. simpl. apply list_elem_of_here.
    + rewrite list_lookup_insert_ne by auto.
      destruct Hown as [[Hst Hno]|(Hb & Hst & j & gj & Hj & Hin)].
      * left. split; [exact Hst|]. intros j gj Hj.
        destruct (Hnew j gj Hj) as [[-> ->]|[Hnej Hj']].
        -- simpl. apply not_elem_of_cons. split; [exact Hne|].
           apply (Hno i g Hi).
        -- apply (Hno j gj Hj').
      * right. split; [exact Hb|]. split; [exact Hst|].
        destruct (decide (j = i)) as [->|Hnej].
        -- exists i, g'. split; [exact Hat|]. simpl.
           rewrite Hi in Hj. injection Hj as <-.
           apply list_elem_of_further, Hin.
        -- exists j, gj. split; [apply Hother; assumption|exact Hin].
  - (* Unlock *)
    destruct (mutexes w !! l0) as [[|]|] eqn:Hheld; try discriminate.
    injection Hex as _ <-. simpl mutexes.
    pose proof (lookup_lt_Some _ _ _ Hheld) as Hlt0.
    simpl in Hperm. destruct (held g) as [|l1 h] eqn:Hh; [discriminate|].
    injection Hperm as ->.
    assert (Hrel : held g' = h).
    { simpl. rewrite ?Hh. simpl. destruct (decide (l0 = l0)); congruence. }
    apply NoDup_cons in Hnd. destruct Hnd as [Hnin _].
    destruct (decide (l = l0)) as [->|Hne].
    + left. destruct Hown as [[_ Hno]|(Hb & _ & _)].
      { exfalso. apply (Hno i g Hi). rewrite Hh. apply list_elem_of_here. }
      subst b0. split; [apply list_lookup_insert_eq, Hlt0|].
      intros j gj Hj. destruct (Hnew j gj Hj) as [[-> ->]|[Hnej Hj']].
      * rewrite Hrel. exact Hnin.
      * intros Hin. apply Hnej. symmetry.
        apply (I3 i j g gj l0 Hi Hj'); [|exact Hin].
        rewrite Hh. apply list_elem_of_here.
    + rewrite list_lookup_insert_ne by auto.
      destruct Hown as [[Hst Hno]|(Hb & Hst & j & gj & Hj & Hin)].
      * left. split; [exact Hst|]. intros j gj Hj.
        destruct (Hnew j gj Hj) as [[-> ->]|[Hnej Hj']].
        -- rewrite Hrel. intros Hin. apply (Hno i g Hi).
           rewrite Hh. apply list_elem_of_further, Hin.
        -- apply (Hno j gj Hj').
      * right. split; [exact Hb|]. split; [exact Hst|].
        destruct (decide (j = i)) as [->|Hnej].
        -- exists i, g'. split; [exact Hat|]. rewrite Hrel.
           rewrite Hi in Hj. injection Hj as <-. rewrite Hh in Hin.
           apply elem_of_cons in Hin. destruct Hin as [->|Hin]; tauto.
        -- exists j, gj. split; [apply Hother; assumption|exact Hin].
  - (* a new mutex *)
    injection Hex as _ <-. simpl mutexes.
    assert (Hst' : forall b, mutexes w !! l = Some b ->
              (mutexes w ++ [false]) !! l = Some b).
    { intros b Hb. rewrite lookup_app_l; [exact Hb|].
      eapply lookup_lt_Some, Hb. }
    destruct Hown as [[Hst Hno]|(Hb & Hst & j & gj & Hj & Hin)].
    + left. split; [apply Hst', Hst|]. intros j gj Hj.
      destruct (Hnew j gj Hj) as [[-> ->]|[Hnej Hj']].
      * simpl. apply (Hno i g Hi).
      * apply (Hno j gj Hj').
    + right. split; [exact Hb|]. split; [apply Hst', Hst|].
      destruct (decide (j = i)) as [->|Hnej].
      * exists i, g'. split; [exact Hat|]. simpl.
        rewrite Hi in Hj. injection Hj as <-. exact Hin.
      * exists j, gj. split; [apply Hother; assumption|exact Hin].
  - (* a library call *)
    destruct (f (ext w)) as [r0 x]. injection Hex as _ <-. simpl mutexes.
    destruct Hown as [[Hst Hno]|(Hb & Hst & j & gj & Hj & Hin)].
    + left. split; [exact Hst|]. intros j gj Hj.
      destruct (Hnew j gj Hj) as [[-> ->]|[Hnej Hj']].
      * simpl. apply (Hno i g Hi).
      * apply (Hno j gj Hj').
    + right. split; [exact Hb|]. split; [exact Hst|].
      destruct (decide (j = i)) as [->|Hnej].
      * exists i, g'. split; [exact Hat|]. simpl.
        rewrite Hi in Hj. injection Hj as <-. exact Hin.
      * exists j, gj. split; [apply Hother; assumption|exact Hin].
Qed.

Lemma invs_reachable (m0 : list bool) (c0 c : list goroutine * World) :
  lock_inv c0 -> own_inv m0 c0 -> reachable c0 c ->
  lock_inv c /\ own_inv m0 c.
Proof.
  intros H0 H1 Hr. induction Hr as [|c1 c2 Hr [IHl IHo] Hs]; [auto|].
  split; [eapply lock_inv_step; eassumption|].
  eapply own_inv_step; eassumption.
Qed.

Lemma own_inv_init (cw : connWrap) (acts : list Action) (w : World) :
  own_inv (mutexes w) (go_Do cw <$> acts, w).
Proof.
  intros l b0 Hl. left. split; [exact Hl|]. simpl. intros i g Hi.
  apply list_lookup_fmap_Some in Hi. destruct Hi as (a & -> & _).
  simpl. apply not_elem_of_nil.
Qed.

(** X10.  Goroutines that each call [Do] on the same [connWrap], in any
    schedule.  In every configuration they reach: a goroutine that has
    returned or panicked holds no mutex; a mutex that was there at the
    start and that no goroutine holds is in the state it had at the
    start, so when all goroutines have ended every mutex is; and, when
    the mutex of the connection was free at the start, it is held exactly
    when one goroutine is inside [Do]. *)
Theorem goroutines_give_lock_back (cw : connWrap) (acts : list Action)
    (w : World) (c : list goroutine * World) :
  Forall (fun a : Action => forall x, balanced [] (a x)) acts ->
  reachable (go_Do cw <$> acts, w) c ->
  (forall i g, c.1 !! i = Some g -> ended g -> held g = []) /\
  (forall l b0, mutexes w !! l = Some b0 ->
     (forall i g, c.1 !! i = Some g -> l ∉ held g) ->
     mutexes c.2 !! l = Some b0) /\
  (Forall ended c.1 ->
   forall l b0, mutexes w !! l = Some b0 -> mutexes c.2 !! l = Some b0) /\
  (mutexes w !! doL cw = Some false ->
   (mutexes c.2 !! doL cw = Some true <-> inside cw c.1 = 1%nat)).
Proof.
  intros Hacts Hr.
  destruct (invs_reachable (mutexes w) _ _ (lock_inv_init cw acts w Hacts)
              (own_inv_init cw acts w) Hr) as [(I1 & I2 & I3) Hown].
  assert (Hend : forall i g, c.1 !! i = Some g -> ended g -> held g = []).
  { intros i g Hi He. destruct (I1 i g Hi) as [Hbal _].
    unfold ended in He. destruct (code g); simpl in Hbal;
      [exact Hbal|exact Hbal|contradiction]. }
  assert (Hfree : forall l b0, mutexes w !! l = Some b0 ->
            (forall i g, c.1 !! i = Some g -> l ∉ held g) ->
            mutexes c.2 !! l = Some b0).
  { intros l b0 Hl Hno.
    destruct (Hown l b0 Hl) as [[Hst _]|(_ & _ & i & g & Hi & Hin)];
      [exact Hst|]. exfalso. apply (Hno i g Hi Hin). }
  split; [exact Hend|]. split; [exact Hfree|]. split.
  - intros Hall l b0 Hl. apply (Hfree l b0 Hl). intros i g Hi.
    rewrite (Hend i g Hi (Forall_lookup_1 _ _ _ _ Hall Hi)).
    apply not_elem_of_nil.
  - intros Hl.
    assert (Hle : (inside cw c.1 <= 1)%nat).
    { unfold inside. apply at_most_one. intros i j gi gj Hi Hj Hgi Hgj.
      apply (I3 i j gi gj (doL cw)); assumption. }
    split.
    + intros Hheld.
      destruct (Hown (doL cw) false Hl) as [[Hst _]|(_ & _ & i & g & Hi & Hin)];
        [congruence|].
      assert (Hg : g ∈ filter (fun g => doL cw ∈ held g) c.1).
      { apply list_elem_of_filter. split; [exact Hin|].
        eapply list_elem_of_lookup_2, Hi. }
      unfold inside in *.
      destruct (filter (fun g => doL cw ∈ held g) c.1) as [|x t];
        [apply elem_of_nil in Hg; contradiction|]. simpl in *. lia.
    + intros Hin. unfold inside in Hin.
      destruct (filter (fun g => doL cw ∈ held g) c.1) as [|x t] eqn:Hf;
        [discriminate|].
      assert (Hx : x ∈ filter (fun g => doL cw ∈ held g) c.1)
        by (rewrite Hf; apply list_elem_of_here).
      apply list_elem_of_filter in Hx. destruct Hx as [Hxin Hxc].
      apply list_elem_of_lookup_1 in Hxc. destruct Hxc as [i Hi].
      apply (I2 i x (doL cw) Hi Hxin).
Qed.

End Ownership.

(** ** Runs on the small platform *)

Section Runs.
#[local] Existing Instance sim.

Lemma balanced_pool0 :
  Forall (fun a : Action => forall x, balanced [] (a x))
         [action_ok; action_encode (sim_marshal [Byte.x2a])].
Proof.
  apply Forall_cons. split; [intros x; reflexivity|].
  apply Forall_cons. split; [|apply Forall_nil_2].
  intros x. apply balanced_Encode. intros b. apply balanced_call.
Qed.

(** While the first goroutine is inside [Do], the second one waits at its
    [Lock]; once the first has left, the second gets in. *)
Example second_goroutine_waits :
  inside cw0 (schedule [0%nat] (pool0, world0)).1 = 1%nat /\
  schedule [0; 1; 1]%nat (pool0, world0) = schedule [0%nat] (pool0, world0) /\
  held <$> (schedule [0; 0; 0; 1]%nat (pool0, world0)).1 = [[]; [0%nat]].
Proof. repeat split; vm_compute; reflexivity. Qed.

(** On this platform a second [Close] returns an error, and an [Encode]
    after [Close] fails when there is something to flush and returns nil
    when there is nothing. *)
Example after_Close :
  run (Close cw0 ;;; Close cw0) world0 =
    Returned err_closed (world_of sim_closed [false] [EvClose 0; EvClose 0]) /\
  run (Close cw0 ;;; Encode cw0 (marshal_fail ErrNil)) world0 =
    Returned ErrNil (world_of sim_closed [false] [EvClose 0; EvFlush 1]) /\
  (exists w', run (Close cw0 ;;; Encode cw0 (sim_marshal [Byte.x2a])) world0 =
     Returned err_closed w').
Proof. repeat split. eexists. vm_compute. reflexivity. Qed.

Lemma NetConn_refuses_witness :
  run (Conn_Write (NetConn cw0) [Byte.x2a]) world0 =
    Returned (0, errorString
      "Write not allowed to be called on net.Conn returned from radix") world0.
Proof. apply (NetConn_refuses cw0 [Byte.x2a] world0). Defined.

Lemma timeoutConn_deadline_witness :
  0 < 5 /\
  run (Conn_Read (timeoutConn (extConn 0) 5) [Byte.x00]) world0 =
    Returned ([Byte.x00], 0, err_timeout)
      (world_of {| clock := 1001; closed := false; deadline := Some 1005;
                   sent := []; pending := []; inbox := [] |}
         [false] [EvNow; EvSetDeadline 0 1005; EvRead 0 [Byte.x00]]) /\
  0 <= 0 /\
  run (Conn_Read (timeoutConn (extConn 0) 0) [Byte.x00]) world0 =
    Returned ([Byte.x00], 0, err_timeout)
      (world_of sim0 [false] [EvRead 0 [Byte.x00]]).
Proof.
  destruct (timeoutConn_deadline 0 5 [Byte.x00] world0) as [Hpos _].
  destruct (timeoutConn_deadline 0 0 [Byte.x00] world0) as [_ Hnon].
  split; [lia|]. split.
  - destruct (Hpos ltac:(lia)) as [Hr _]. rewrite Hr. reflexivity.
  - split; [lia|]. destruct (Hnon ltac:(lia)) as (_ & Hr & _).
    rewrite Hr. reflexivity.
Defined.

Lemma codec_error_closes_witness :
  run (Encode cw0 (marshal_fail err_timeout)) world0 =
    Returned err_timeout (world_of sim_closed [false] [EvClose 0]) /\
  run (Decode cw0 (unmarshal_fail err_timeout)) world0 =
    Returned err_timeout (world_of sim_closed [false] [EvClose 0]) /\
  run (Decode cw0 (unmarshal_fail (protoError "bad reply"))) world0 =
    Returned (protoError "bad reply") world0.
Proof.
  destruct (codec_error_closes cw0 (marshal_fail err_timeout)
              (unmarshal_fail err_timeout) world0 world0 err_timeout)
    as (H1 & _ & H3 & _).
  destruct (codec_error_closes cw0 (marshal_fail ErrNil)
              (unmarshal_fail (protoError "bad reply")) world0 world0
              (protoError "bad reply"))
    as (_ & _ & H3' & _).
  split; [rewrite (H1 eq_refl eq_refl); reflexivity|].
  split; [rewrite (H3 eq_refl); reflexivity|].
  rewrite (H3' eq_refl). reflexivity.
Defined.

Lemma Encode_flushes_after_marshal_only_witness :
  flushes (log (final (run (Encode cw0 (marshal_fail (protoError "bad")))
                           world0))) = 0%nat /\
  flushes (log (final (run (Encode cw0 (sim_marshal [Byte.x2a]))
                           world0))) = 1%nat.
Proof.
  destruct (Encode_flushes_after_marshal_only cw0
              (marshal_fail (protoError "bad")) world0 world0
              (protoError "bad") eq_refl) as [Hfail _].
  destruct (Encode_flushes_after_marshal_only cw0
              (sim_marshal [Byte.x2a]) world0 _ ErrNil eq_refl) as [_ Hok].
  split.
  - destruct (Hfail eq_refl) as [Hf _]. rewrite Hf. reflexivity.
  - rewrite (Hok eq_refl). reflexivity.
Defined.

Lemma Dial_fails_or_wraps_witness :
  run (Dial "tcp" "nowhere:1") world0 =
    Returned (None, err_refused)
      (world_of sim0 [false] [EvDial "tcp" "nowhere:1"]) /\
  exists cw w',
    run (DialTimeout "tcp" "localhost:6379" 5) world0 =
      Returned (Some cw, ErrNil) w' /\
    Conn cw = timeoutConn (extConn 0) 5.
Proof.
  destruct (Dial_fails_or_wraps "tcp" "nowhere:1" 5 world0) as (H1 & _).
  destruct (Dial_fails_or_wraps "tcp" "localhost:6379" 5 world0)
    as (_ & _ & _ & H4).
  split; [rewrite (H1 eq_refl); reflexivity|].
  destruct (H4 eq_refl) as (cw & w' & _ & Hrun & HConn & _).
  exists cw, w'. split; [exact Hrun|exact HConn].
Defined.

Lemma DialTimeout_timeout_twice_witness :
  exists cw w',
    run (DialTimeout "tcp" "localhost:6379" 5) world0 =
      Returned (Some cw, ErrNil) w' /\
    Conn cw = timeoutConn (extConn 0) 5 /\
    log (final (run (Conn_Write (Conn cw) [Byte.x2a]) w')) =
      log w' ++ [EvNow; EvSetDeadline 0 1005; EvWrite 0 [Byte.x2a]].
Proof.
  destruct (DialTimeout_timeout_twice "tcp" "localhost:6379" 5 [Byte.x2a]
              world0) as [_ H].
  eexists _, _. split; [reflexivity|].
  match goal with
  | |- Conn ?cw = _ /\ log (final (run _ ?w')) = _ =>
      destruct (H cw w' eq_refl) as (HConn & _ & Hrw);
      split; [exact HConn|];
      destruct (Hrw 0%nat w' eq_refl ltac:(lia)) as [_ Hw]; exact Hw
  end.
Defined.

Lemma Do_runs_action_once_witness :
  mutexes world0 !! doL cw0 = Some false /\
  run (Do cw0 action_ok) world0 =
    Returned ErrNil (world_of sim0 [false; false] []).
Proof.
  split; [reflexivity|].
  destruct (Do_runs_action_once cw0 action_ok world0 eq_refl
              (fun _ => eq_refl)) as (_ & _ & _ & _ & H).
  destruct (H ErrNil _ eq_refl) as (HDo & _). rewrite HDo. reflexivity.
Defined.

Lemma nested_Do_returns_witness :
  mutexes world0 !! doL cw0 = Some false /\
  exists e w',
    run (Do cw0 (nested 3 action_ok)) world0 = Returned e w' /\
    mutexes w' !! doL cw0 = Some false.
Proof.
  split; [reflexivity|].
  destruct (nested_Do_returns cw0 action_ok 3 world0 eq_refl
              (fun _ => eq_refl)
              (fun c w0 => ex_intro _ ErrNil (ex_intro _ w0 eq_refl)))
    as ((e & w' & Hrun & Hfree & _) & _).
  exists e, w'. split; [exact Hrun|exact Hfree].
Defined.

Lemma Do_mutual_exclusion_witness :
  (inside cw0 (schedule [0; 1; 0; 1; 1]%nat (pool0, world0)).1 <= 1)%nat.
Proof.
  apply (Do_mutual_exclusion cw0
           [action_ok; action_encode (sim_marshal [Byte.x2a])] world0
           (schedule [0; 1; 0; 1; 1]%nat (pool0, world0)) balanced_pool0).
  apply reachable_schedule. constructor.
Defined.

Lemma Do_after_Close_returns_nil_witness :
  exists w',
    run (Close cw0 ;;; Do cw0 action_ok) world0 = Returned ErrNil w' /\
    log w' = [EvClose 0].
Proof.
  apply (Do_after_Close_returns_nil cw0 0 world0 eq_refl eq_refl).
Defined.

End Runs.

(** ** Actions run one at a time *)

Section Serial.
Context {P : Platform}.
Variable count : W -> nat.
Variables enter leave : W -> unit * W.
Variables ev_enter ev_leave : Event.
Hypothesis enter_count : forall x, count (enter x).2 = S (count x).
Hypothesis leave_count : forall x, count (leave x).2 = Nat.pred (count x).

Lemma balanced_defer_call {A : Type} (p : Prog A) (h : list nat)
    (ev : Event) (f : W -> unit * W) :
  balanced h p -> balanced h (defer (call ev f) p).
Proof.
  revert h. induction p as [a|msg|R op k IH]; intros h Hp; simpl in *.
  - subst h. simpl. auto.
  - subst h. simpl. auto.
  - destruct Hp as [Hop Hk]. split; [exact Hop|]. intros r. apply IH, Hk.
Qed.

Lemma balanced_counted (body : Action) :
  (forall c, balanced [] (body c)) -> forall c, balanced [] (counted enter leave ev_enter ev_leave body c).
Proof.
  intros Hb c. unfold counted. simpl. split; [exact I|]. intros _.
  apply balanced_defer_call, Hb.
Qed.

Lemma exec_quiet {R : Type} (op : Op R) (w w1 : World) (r : R) :
  op_quiet count op -> exec op w = Step r w1 ->
  count (ext w1) = count (ext w).
Proof.
  destruct op as [l|l| |R ev f]; simpl; intros Hq Hex.
  - destruct (mutexes w !! l) as [[|]|]; try discriminate.
    injection Hex as _ <-. reflexivity.
  - destruct (mutexes w !! l) as [[|]|]; try discriminate.
    injection Hex as _ <-. reflexivity.
  - injection Hex as _ <-. reflexivity.
  - specialize (Hq (ext w)). destruct (f (ext w)) as [r0 x].
    injection Hex as _ <-. exact Hq.
Qed.

(** One step of a goroutine: the phase it goes to and what the step does
    to the counter.  The counter goes up only in a step of a goroutine
    that holds the mutex of [cw]. *)
Lemma phase_step (cw : connWrap) (g g' : goroutine) (b : bool)
    (w w' : World) :
  phase count enter leave ev_enter ev_leave cw g b ->
  step_goroutine g w = Some (g', w') ->
  exists b' : bool,
    phase count enter leave ev_enter ev_leave cw g' b' /\
    match b, b' with
    | true, true => count (ext w') = count (ext w)
    | true, false => count (ext w') = Nat.pred (count (ext w))
    | false, true => count (ext w') = S (count (ext w)) /\ doL cw ∈ held g
    | false, false => count (ext w') = count (ext w)
    end.
Proof.
  intros Hph Hs. unfold step_goroutine in Hs.
  destruct Hph as [body Hb Hq|body Hb Hq|body inner Hb Hq|h p Hp Hq|q Hf|q Hf];
    cbn [code held] in Hs.
  - (* the Lock *)
    unfold Do, Lock in Hs. cbn [bind] in Hs.
    destruct (exec (OLock (doL cw)) w) as [r w1| |] eqn:Hex; try discriminate.
    injection Hs as <- <-. exists false. split.
    + apply (ph_locked count enter leave ev_enter ev_leave cw body Hb Hq).
    + apply (exec_quiet (OLock (doL cw)) _ _ _ I Hex).
  - (* the mutex of the inner connWrap *)
    unfold NewMutex in Hs. cbn [bind defer] in Hs.
    destruct (exec ONewMutex w) as [r w1| |] eqn:Hex; try discriminate.
    injection Hs as <- <-. exists false. split.
    + apply (ph_ready count enter leave ev_enter ev_leave cw body _ Hb Hq).
    + apply (exec_quiet ONewMutex _ _ _ I Hex).
  - (* enter *)
    unfold Run, counted, call in Hs. cbn [bind defer] in Hs.
    cbn [exec] in Hs. pose proof (enter_count (ext w)) as Hc.
    destruct (enter (ext w)) as [r x]. injection Hs as <- <-.
    exists true. split.
    + apply (ph_body count enter leave ev_enter ev_leave cw [] (body inner)
               (Hb inner) (Hq inner)).
    + split; [exact Hc|]. apply list_elem_of_here.
  - (* a step of the body, or leave *)
    destruct p as [a|msg|R op k].
    + simpl in Hp. subst h. unfold call in Hs. cbn [bind defer exec] in Hs.
      pose proof (leave_count (ext w)) as Hc.
      destruct (leave (ext w)) as [r x]. injection Hs as <- <-.
      exists false. split; [|exact Hc].
      apply (ph_left count enter leave ev_enter ev_leave cw (Ret a) I).
    + simpl in Hp. subst h. unfold call in Hs. cbn [bind defer exec] in Hs.
      pose proof (leave_count (ext w)) as Hc.
      destruct (leave (ext w)) as [r x]. injection Hs as <- <-.
      exists false. split; [|exact Hc].
      apply (ph_left count enter leave ev_enter ev_leave cw (Panic msg) I).
    + simpl in Hp, Hq. destruct Hp as [Hop Hk]. destruct Hq as [Hqo Hqk].
      cbn [defer] in Hs.
      destruct (exec op w) as [r w1| |] eqn:Hex; try discriminate.
      injection Hs as <- <-. exists true. split.
      * rewrite (track_app op h (doL cw) Hop).
        apply (ph_body count enter leave ev_enter ev_leave cw _ (k r)
                 (Hk r) (Hqk r)).
      * apply (exec_quiet _ _ _ _ Hqo Hex).
  - (* the Unlock *)
    destruct q as [a|msg|R op k]; [| |contradiction]; unfold Unlock in Hs;
      cbn [bind defer] in Hs;
      (destruct (exec (OUnlock (doL cw)) w) as [r w1| |] eqn:Hex;
         try discriminate);
      injection Hs as <- <-; exists false;
      (split; [|apply (exec_quiet (OUnlock (doL cw)) _ _ _ I Hex)]);
      cbn [track release]; destruct (decide (doL cw = doL cw)); try congruence.
    + apply (ph_ended count enter leave ev_enter ev_leave cw (Ret a) I).
    + apply (ph_ended count enter leave ev_enter ev_leave cw (Panic msg) I).
  - destruct q as [a|msg|R op k]; [discriminate|discriminate|contradiction].
Qed.

Lemma phase_true_held (cw : connWrap) (g : goroutine) :
  phase count enter leave ev_enter ev_leave cw g true -> doL cw ∈ held g.
Proof.
  intros Hph. inversion Hph; subst. simpl.
  apply elem_of_app. right. apply list_elem_of_here.
Qed.

Lemma count_inv_step (cw : connWrap) (c c' : list goroutine * World) :
  lock_inv c ->
  count_inv count enter leave ev_enter ev_leave cw c ->
  sched_step c c' ->
  count_inv count enter leave ev_enter ev_leave cw c'.
Proof.
  intros (I1 & I2 & I3) (bs & Hall & Hcount) Hs.
  destruct Hs as [gs w i g g' w' Hi Hstep]. simpl in *.
  destruct (Forall2_lookup_l _ _ _ _ _ Hall Hi) as (b & Hbi & Hph).
  destruct (phase_step cw g g' b w w' Hph Hstep) as (b' & Hph' & Hrel).
  assert (Huniq : forall j, bs !! j = Some true -> b = true -> j = i).
  { intros j Hj ->.
    destruct (Forall2_lookup_r _ _ _ _ _ Hall Hj) as (gj & Hgj & Hpj).
    apply (I3 j i gj g (doL cw) Hgj Hi); apply phase_true_held; assumption. }
  pose proof (lookup_lt_Some _ _ _ Hbi) as Hlt.
  exists (<[i := b']> bs). split; [apply Forall2_insert; assumption|].
  cbn [fst snd].
  destruct b, b'.
  - (* the body goes on *)
    right. destruct Hcount as [[_ Hno]|[Hc _]]; [destruct (Hno i Hbi)|].
    split; [simpl; rewrite Hrel; assumption|]. exists i. apply list_lookup_insert_eq, Hlt.
  - (* leave *)
    left. destruct Hcount as [[_ Hno]|[Hc _]]; [destruct (Hno i Hbi)|].
    split; [rewrite Hrel, Hc; reflexivity|].
    intros j Hj. apply list_lookup_insert_Some in Hj.
    destruct Hj as [(_ & Hft & _)|[Hne Hj]]; [discriminate|].
    apply Hne. symmetry. apply Huniq; auto.
  - (* enter *)
    destruct Hrel as [Hc Hheld]. right.
    destruct Hcount as [[Hz _]|[_ (j & Hj)]].
    + split; [rewrite Hc, Hz; reflexivity|].
      exists i. apply list_lookup_insert_eq, Hlt.
    + exfalso.
      destruct (Forall2_lookup_r _ _ _ _ _ Hall Hj) as (gj & Hgj & Hpj).
      assert (j = i)
        by (apply (I3 j i gj g (doL cw) Hgj Hi);
            [apply phase_true_held; exact Hpj|exact Hheld]).
      subst j. congruence.
  - (* any other step *)
    destruct Hcount as [[Hz Hno]|[Hc (j & Hj)]].
    + left. split; [simpl; rewrite Hrel; assumption|]. intros j Hj.
      apply list_lookup_insert_Some in Hj.
      destruct Hj as [(_ & Hft & _)|[Hne Hj]]; [discriminate|].
      apply (Hno j Hj).
    + right. split; [simpl; rewrite Hrel; assumption|]. exists j.
      rewrite list_lookup_insert_ne; [exact Hj|]. intros ->. congruence.
Qed.

Lemma count_inv_init (cw : connWrap) (bodies : list Action) (w : World) :
  Forall (fun body : Action =>
            forall x, balanced [] (body x) /\ quiet count (body x)) bodies ->
  count (ext w) = O ->
  count_inv count enter leave ev_enter ev_leave cw
    (go_Do cw <$> (counted enter leave ev_enter ev_leave <$> bodies), w).
Proof.
  intros Hb Hz. exists (replicate (length bodies) false). split.
  - simpl. clear Hz. induction Hb as [|body bodies Hbody _ IH]; simpl.
    + constructor.
    + constructor; [|exact IH]. unfold go_Do.
      apply ph_start; intros c; apply Hbody.
  - left. split; [exact Hz|]. intros i Hi.
    apply lookup_replicate in Hi. destruct Hi as [Hi _]. discriminate.
Qed.

Lemma count_inv_reachable (cw : connWrap) (c0 c : list goroutine * World) :
  lock_inv c0 ->
  count_inv count enter leave ev_enter ev_leave cw c0 ->
  reachable c0 c ->
  lock_inv c /\ count_inv count enter leave ev_enter ev_leave cw c.
Proof.
  intros H0 H1 Hr. induction Hr as [|c1 c2 Hr [IHl IHc] Hs]; [auto|].
  split; [eapply lock_inv_step; eassumption|].
  eapply count_inv_step; eassumption.
Qed.

Lemma quiet_bind {A B : Type} (p : Prog A) (f : A -> Prog B) :
  quiet count p -> (forall a, quiet count (f a)) -> quiet count (bind p f).
Proof.
  induction p as [a|msg|R op k IH]; intros Hp Hf; simpl in *; auto.
  destruct Hp as [Hop Hk]. split; auto.
Qed.

Lemma quiet_call {R : Type} (ev : Event) (f : W -> R * W) :
  (forall x, count (f x).2 = count x) -> quiet count (call ev f).
Proof. intros Hf. simpl. auto. Qed.

Hypothesis Close_count : forall fd x, count (ext_Close fd x).2 = count x.
Hypothesis Flush_count : forall b x, count (bufio_Flush b x).2 = count x.

Lemma quiet_Conn_Close (c : net_Conn) : quiet count (Conn_Close c).
Proof.
  induction c; simpl; auto.
Qed.

Lemma quiet_closeOnNetError (cw : connWrap) (err : error) :
  quiet count (defer (closeOnNetError cw err) (Ret err)).
Proof.
  simpl. apply quiet_bind; [|intros; exact I]. unfold closeOnNetError.
  destruct (is_net_Error err); [|exact I].
  apply quiet_bind; [apply quiet_Conn_Close|intros; exact I].
Qed.

Lemma quiet_Encode (cw : connWrap) (m : Marshaler) :
  (forall b, quiet count (m b)) -> quiet count (Encode cw m).
Proof.
  intros Hm. unfold Encode. apply quiet_bind; [apply Hm|].
  intros err. destruct (negb (is_nil err)).
  - apply quiet_closeOnNetError.
  - apply quiet_bind; [apply quiet_call, Flush_count|].
    intros e. apply quiet_closeOnNetError.
Qed.

Lemma quiet_Decode (cw : connWrap) (u : Unmarshaler) :
  (forall r, quiet count (u r)) -> quiet count (Decode cw u).
Proof.
  intros Hu. unfold Decode. apply quiet_bind; [apply Hu|].
  intros err. apply quiet_bind; [|intros; exact I].
  destruct (is_net_Error err); [|exact I].
  apply quiet_bind; [apply quiet_Conn_Close|intros; exact I].
Qed.

End Serial.

Section Serialization.
Context {P : Platform}.

(** C4.  A shared counter that each action increments when it starts and
    decrements when it ends (also when it panics) shows no two actions
    running at once.  Goroutines each call [Do] on the same [connWrap];
    the action of each is [enter], a body, and [leave] deferred; the
    bodies take mutexes through [Do] only and leave the counter alone;
    the counter starts at 0.  Scheduled in any order, one atomic
    operation at a time: in every configuration they reach the counter
    is 0 or 1; when it is 1 the mutex of the [connWrap] is held and
    exactly one goroutine is between the [Lock] and the [Unlock] of its
    [Do]; and at most one goroutine is ever there. *)
Theorem Do_serializes_actions (count : W -> nat)
    (enter leave : W -> unit * W) (ev_enter ev_leave : Event)
    (cw : connWrap) (bodies : list Action)
    (w : World) (c : list goroutine * World) :
  (forall x, count (enter x).2 = S (count x)) ->
  (forall x, count (leave x).2 = Nat.pred (count x)) ->
  Forall (fun body : Action =>
            forall x, balanced [] (body x) /\ quiet count (body x)) bodies ->
  count (ext w) = O ->
  reachable
    (go_Do cw <$> (counted enter leave ev_enter ev_leave <$> bodies), w) c ->
  (count (ext c.2) <= 1)%nat /\
  (count (ext c.2) = 1%nat ->
     mutexes c.2 !! doL cw = Some true /\ inside cw c.1 = 1%nat) /\
  (inside cw c.1 <= 1)%nat.
Proof.
  intros Henter Hleave Hb Hz Hr.
  assert (Hbal : Forall (fun a : Action => forall x, balanced [] (a x))
                   (counted enter leave ev_enter ev_leave <$> bodies)).
  { apply Forall_fmap. eapply Forall_impl; [exact Hb|].
    intros body Hbody x.
    apply (balanced_counted enter leave ev_enter ev_leave).
    intros y. apply Hbody. }
  destruct (count_inv_reachable count enter leave ev_enter ev_leave
              Henter Hleave cw _ c
              (lock_inv_init cw _ w Hbal)
              (count_inv_init count enter leave ev_enter ev_leave
                 cw bodies w Hb Hz) Hr)
    as [(I1 & I2 & I3) (bs & Hall & Hcount)].
  assert (Hone : (inside cw c.1 <= 1)%nat).
  { unfold inside. apply at_most_one.
    intros i j gi gj Hi Hj Hgi Hgj.
    apply (I3 i j gi gj (doL cw)); assumption. }
  split; [|split; [|exact Hone]].
  - destruct Hcount as [[Hc _]|[Hc _]]; rewrite Hc; lia.
  - intros Hc1. destruct Hcount as [[Hc _]|[_ (i & Hi)]]; [congruence|].
    destruct (Forall2_lookup_r _ _ _ _ _ Hall Hi) as (g & Hg & Hph).
    pose proof (phase_true_held count enter leave ev_enter ev_leave
                  cw g Hph) as Hheld.
    split; [apply (I2 i g (doL cw) Hg Hheld)|].
    assert (Hin : g ∈ filter (fun g => doL cw ∈ held g) c.1).
    { apply list_elem_of_filter. split; [exact Hheld|].
      apply (list_elem_of_lookup_2 _ i). exact Hg. }
    unfold inside in *.
    destruct (filter (fun g => doL cw ∈ held g) c.1) as [|g0 l].
    + apply elem_of_nil in Hin. contradiction.
    + simpl in *. lia.
Qed.

End Serialization.

(** ** More runs on the small platform *)

Section MoreRuns.
#[local] Existing Instance sim.

Lemma wrappers_forward_witness :
  base (NetConn {| Conn := timeoutConn (extConn 0) 5; brw := brw cw0;
                   doL := 0 |}) = extConn 0 /\
  run (Conn_SetDeadline (P := sim)
         (NetConn {| Conn := timeoutConn (extConn 0) 5; brw := brw cw0;
                     doL := 0 |}) 2000) world0 =
    Returned ErrNil
      (world_of {| clock := 1000; closed := false; deadline := Some 2000;
                   sent := []; pending := []; inbox := [] |}
         [false] [EvSetDeadline 0 2000]).
Proof.
  split; [reflexivity|].
  destruct (wrappers_forward (P := sim)
              (NetConn {| Conn := timeoutConn (extConn 0) 5; brw := brw cw0;
                          doL := 0 |}) 0 2000 world0 eq_refl) as [H _].
  rewrite H. reflexivity.
Defined.

Lemma restricted_conn_not_closed_witness :
  limited (Conn {| Conn := NetConn cw0; brw := brw cw0; doL := 0 |}) = true /\
  run (Encode {| Conn := NetConn cw0; brw := brw cw0; doL := 0 |}
              (marshal_fail err_timeout)) world0 =
    Returned err_timeout world0.
Proof.
  split; [reflexivity|].
  destruct (restricted_conn_not_closed
              {| Conn := NetConn cw0; brw := brw cw0; doL := 0 |}
              (marshal_fail err_timeout) (unmarshal_fail err_timeout)
              world0 world0 err_timeout eq_refl) as (_ & H & _).
  apply (H eq_refl eq_refl).
Defined.

Lemma DialTimeout_nonpositive_witness :
  0 <= 0 /\
  exists cw w',
    run (DialTimeout "tcp" "localhost:6379" 0) world0 =
      Returned (Some cw, ErrNil) w' /\
    run (Conn_Write (Conn cw) [Byte.x2a]) w' =
      run (Conn_Write (extConn 0) [Byte.x2a]) w'.
Proof.
  split; [lia|]. eexists _, _. split; [reflexivity|].
  match goal with
  | |- run (Conn_Write (Conn ?cw) _) ?w' = _ =>
      apply (DialTimeout_nonpositive "tcp" "localhost:6379" 0 world0 cw w'
               ltac:(lia) eq_refl [Byte.x2a] w')
  end.
Defined.

Lemma codec_takes_no_lock_witness :
  run (Encode cw0 (sim_marshal [Byte.x2a])) (set_mutexes [true] world0) =
    outcome_map (set_mutexes [true])
      (run (Encode cw0 (sim_marshal [Byte.x2a])) world0) /\
  ends (run (Encode cw0 (sim_marshal [Byte.x2a])) (set_mutexes [true] world0)).
Proof.
  destruct (codec_takes_no_lock cw0 (sim_marshal [Byte.x2a])
              (unmarshal_fail ErrNil) [true] world0
              (fun _ => conj I (fun _ => I)) (fun _ => I))
    as [(_ & _ & H) _].
  split; [exact H|]. rewrite H. exact I.
Defined.

Lemma Do_adds_nothing_witness :
  mutexes world0 !! doL cw0 = Some false /\
  run (Do cw0 (fun c => Encode c (sim_marshal [Byte.x2a]))) world0 =
    outcome_map (set_mutexes [false; false])
      (run (Encode cw0 (sim_marshal [Byte.x2a])) world0).
Proof.
  split; [reflexivity|].
  destruct (Do_adds_nothing cw0 action_ok world0 eq_refl (fun _ => I))
    as (_ & _ & H).
  apply (H (sim_marshal [Byte.x2a]) (fun _ => conj I (fun _ => I))).
Defined.

Lemma Do_gives_lock_back_witness :
  run (Do cw0 action_panic) world0 =
    Panicked "boom" (world_of sim0 [false; false] []) /\
  mutexes (final (run (Do cw0 action_panic) world0)) !! doL cw0 = Some false.
Proof.
  split; [reflexivity|].
  destruct (Do_gives_lock_back cw0 action_panic world0 (fun _ => eq_refl) I)
    as (_ & H & _).
  exact H.
Defined.

Lemma NewConn_fresh_witness :
  exists cw w0,
    run (NewConn (extConn 0)) world0 = Returned cw w0 /\
    mutexes world0 !! doL cw = None /\
    exists e w', run (Do cw action_ok) w0 = Returned e w'.
Proof.
  destruct (NewConn_fresh (extConn 0) action_ok world0 (fun _ => eq_refl)
              (fun x w0 => ex_intro _ ErrNil (ex_intro _ w0 eq_refl)))
    as (cw & w0 & Hrun & _ & Hnone & _ & _ & _ & Hdo).
  exists cw, w0. auto.
Defined.

Lemma goroutines_give_lock_back_witness :
  Forall ended (schedule [0; 1; 0; 0; 1; 1; 1; 1; 1]%nat (pool0, world0)).1 /\
  mutexes (schedule [0; 1; 0; 0; 1; 1; 1; 1; 1]%nat (pool0, world0)).2
    !! doL cw0 = Some false.
Proof.
  assert (He : Forall ended
            (schedule [0; 1; 0; 0; 1; 1; 1; 1; 1]%nat (pool0, world0)).1)
    by (vm_compute; repeat constructor).
  split; [exact He|].
  destruct (goroutines_give_lock_back cw0
              [action_ok; action_encode (sim_marshal [Byte.x2a])] world0
              (schedule [0; 1; 0; 0; 1; 1; 1; 1; 1]%nat (pool0, world0))
              balanced_pool0 (reachable_schedule _ _ _ (reach_refl _)))
    as (_ & _ & H & _).
  apply (H He (doL cw0) false eq_refl).
Defined.

Lemma sim_enter_count (x : SimW) :
  sim_count (sim_enter x).2 = S (sim_count x).
Proof. reflexivity. Qed.

Lemma sim_leave_count (x : SimW) :
  sim_count (sim_leave x).2 = Nat.pred (sim_count x).
Proof. unfold sim_count, sim_leave. simpl. destruct (inbox x); reflexivity. Qed.

Lemma sim_Close_count (x : SimW) : sim_count (sim_Close x).2 = sim_count x.
Proof. unfold sim_Close. destruct (closed x); reflexivity. Qed.

Lemma sim_Flush_count (x : SimW) : sim_count (sim_Flush x).2 = sim_count x.
Proof.
  unfold sim_Flush. destruct (pending x); [reflexivity|].
  destruct (closed x); reflexivity.
Qed.

Lemma quiet_bodies :
  Forall (fun body : Action =>
            forall x, balanced [] (body x) /\ quiet (P := sim) sim_count (body x))
         [action_ok; action_encode (sim_marshal [Byte.x2a])].
Proof.
  apply Forall_cons. split; [intros x; split; [reflexivity|exact I]|].
  apply Forall_cons. split; [|apply Forall_nil_2].
  intros x. split.
  - apply balanced_Encode. intros b. apply balanced_call.
  - apply (quiet_Encode (P := sim) sim_count (fun _ => sim_Close_count)
             (fun _ => sim_Flush_count)).
    intros b. apply quiet_call. intros y. reflexivity.
Qed.

(** The first goroutine is in its action, the second waits at [Lock]. *)
Lemma Do_serializes_actions_witness :
  sim_count (ext (schedule [0; 0; 0; 1]%nat (pool1, world0)).2) = 1%nat /\
  mutexes (schedule [0; 0; 0; 1]%nat (pool1, world0)).2 !! doL cw0
    = Some true /\
  inside cw0 (schedule [0; 0; 0; 1]%nat (pool1, world0)).1 = 1%nat.
Proof.
  destruct (Do_serializes_actions (P := sim) sim_count sim_enter sim_leave
              (EvCodec "enter") (EvCodec "leave") cw0
              [action_ok; action_encode (sim_marshal [Byte.x2a])] world0
              (schedule [0; 0; 0; 1]%nat (pool1, world0))
              sim_enter_count sim_leave_count quiet_bodies eq_refl
              (reachable_schedule _ _ _ (reach_refl _)))
    as (_ & Hheld & _).
  split; [reflexivity|]. apply Hheld. reflexivity.
Defined.

(** Both goroutines run to the end, one action after the other: the
    counter is back at 0 and the mutex is free. *)
Example both_actions_done :
  let c := schedule [0; 0; 0; 1; 0; 0; 1; 1; 1; 1; 1; 1; 1; 1]%nat
             (pool1, world0) in
  Forall ended c.1 /\
  sim_count (ext c.2) = O /\
  mutexes c.2 !! doL cw0 = Some false.
Proof.
  simpl. split; [|split; reflexivity].
  repeat (apply Forall_cons; split; [exact I|]). apply Forall_nil_2.
Qed.

(** Without [Do] the same two actions overlap: the counter reaches 2. *)
Example bare_actions_overlap :
  reachable (pool_bare, world0) (schedule [0; 1]%nat (pool_bare, world0)) /\
  sim_count (ext (schedule [0; 1]%nat (pool_bare, world0)).2) = 2%nat.
Proof.
  split; [apply reachable_schedule; constructor|reflexivity].
Qed.

End MoreRuns.
